(** * Mandelbrot explorer: viewport geometry, escape-time kernel and render scheduling

    A shallow embedding of [src/core/viewport.ts], [src/core/mandelbrot.ts],
    [src/renderer/renderController.ts], [src/state/store.ts] and the render
    request of [src/ui/App.tsx].

    The TypeScript [number] type is kept abstract behind the class [JsNum], so
    that every function of the numeric core is written once, in the shape of
    its source.  Two instances are given:
    - [R], the exact reals: the setting in which the algebraic laws of the
      mapping functions are stated (a law holding "to floating-point
      precision" is an exact identity here).  Division by zero means nothing
      on [R]; every law stated over [R] carries the hypotheses that keep the
      denominators of the code away from zero;
    - [float], IEEE 754 binary64 as JavaScript evaluates it: used to run the
      code on concrete inputs and to follow it through zero denominators, NaN
      and infinities. *)

From Stdlib Require Import ZArith Reals Lra Lia Floats String.
From Stdlib Require Uint63.
From stdpp Require Import gmap.

(** ** Numbers *)

Class JsNum (T : Type) := {
  fromZ : Z → T;                (* an integer literal *)
  add : T → T → T;
  sub : T → T → T;
  mul : T → T → T;
  div : T → T → T;
  neg : T → T;                  (* unary minus *)
  gt : T → T → bool;            (* [a > b] *)
  lt : T → T → bool;            (* [a < b] *)
  Math_max : T → T → T;
  Math_min : T → T → T;
}.

(** [Math.sqrt], [Math.log] and [Math.exp]. *)
Class JsMath (T : Type) := {
  Math_sqrt : T → T;
  Math_log : T → T;
  Math_exp : T → T;
}.

Declare Scope js_scope.
Delimit Scope js_scope with js.
Infix "+" := add : js_scope.
Infix "-" := sub : js_scope.
Infix "*" := mul : js_scope.
Infix "/" := div : js_scope.
Infix ">?" := gt (at level 70) : js_scope.
Infix "<?" := lt (at level 70) : js_scope.

(** Exact real arithmetic. *)
#[export] Instance R_JsNum : JsNum R := {|
  fromZ := IZR;
  add := Rplus;
  sub := Rminus;
  mul := Rmult;
  div := Rdiv;
  neg := Ropp;
  gt a b := if Rlt_dec b a then true else false;
  lt a b := if Rlt_dec a b then true else false;
  Math_max := Rmax;
  Math_min := Rmin;
|}.

#[export] Instance R_JsMath : JsMath R := {|
  Math_sqrt := R_sqrt.sqrt;
  Math_log := Rpower.ln;
  Math_exp := Rtrigo_def.exp;
|}.

(** IEEE 754 binary64, with the primitive operations of the kernel: [+], [-],
    [*], [/] round to nearest even and comparisons are false on NaN, as in
    JavaScript.  Integer literals of the source are small and convert
    exactly. *)
Definition Z2F (z : Z) : float :=
  match z with
  | Z0 => 0%float
  | Zpos _ => PrimFloat.of_uint63 (Uint63.of_Z z)
  | Zneg p => PrimFloat.opp (PrimFloat.of_uint63 (Uint63.of_Z (Zpos p)))
  end.

Definition is_nan (a : float) : bool := negb (PrimFloat.eqb a a).

(** [Math.max] and [Math.min] return NaN as soon as one argument is NaN. *)
Definition F_max (a b : float) : float :=
  if is_nan a || is_nan b then PrimFloat.nan
  else if PrimFloat.ltb a b then b
  else if PrimFloat.ltb b a then a
  else if PrimFloat.eqb a 0 then PrimFloat.add a b   (* max(-0, +0) is +0 *)
  else a.

Definition F_min (a b : float) : float :=
  if is_nan a || is_nan b then PrimFloat.nan
  else if PrimFloat.ltb b a then b
  else if PrimFloat.ltb a b then a
  else if PrimFloat.eqb a 0                          (* min(-0, +0) is -0 *)
       then PrimFloat.opp (PrimFloat.add (PrimFloat.opp a) (PrimFloat.opp b))
  else a.

#[export] Instance F_JsNum : JsNum float := {|
  fromZ := Z2F;
  add := PrimFloat.add;
  sub := PrimFloat.sub;
  mul := PrimFloat.mul;
  div := PrimFloat.div;
  neg := PrimFloat.opp;
  gt a b := PrimFloat.ltb b a;
  lt a b := PrimFloat.ltb a b;
  Math_max := F_max;
  Math_min := F_min;
|}.


(** ** [src/core/types.ts] *)

Record Viewport (T : Type) := mkViewport {
  centerRe : T;
  centerIm : T;
  width : T;
  height : T;
}.
Arguments mkViewport {T}.
Arguments centerRe {T}.
Arguments centerIm {T}.
Arguments width {T}.
Arguments height {T}.

Module Rect.
Record t (T : Type) := mk { x : T; y : T; width : T; height : T }.
Arguments mk {T}.
Arguments x {T}.
Arguments y {T}.
Arguments width {T}.
Arguments height {T}.
End Rect.

Module CanvasSize.
Record t (T : Type) := mk { width : T; height : T }.
Arguments mk {T}.
Arguments width {T}.
Arguments height {T}.
End CanvasSize.

Record ComplexPoint (T : Type) := mkComplex { re : T; im : T }.
Arguments mkComplex {T}.
Arguments re {T}.
Arguments im {T}.

Record PixelPoint (T : Type) := mkPixel { px : T; py : T }.
Arguments mkPixel {T}.
Arguments px {T}.
Arguments py {T}.

Record Bounds (T : Type) := mkBounds { left : T; right : T; top : T; bottom : T }.
Arguments mkBounds {T}.
Arguments left {T}.
Arguments right {T}.
Arguments top {T}.
Arguments bottom {T}.

(** ** [src/core/viewport.ts] *)

Section ViewportCode.
Context {T : Type} `{JsNum T}.
Local Open Scope js_scope.

(** The literals [1.05] and [-0.5]; the quotient of two small integers is
    correctly rounded, so on [float] these are the doubles JavaScript reads. *)
Definition lit_1_05 : T := fromZ 105 / fromZ 100.
Definition lit_neg_0_5 : T := fromZ (-1) / fromZ 2.

Definition createViewport (centerRe centerIm width height : T) : Viewport T :=
  mkViewport centerRe centerIm width height.

Definition resetViewport (aspectRatio : T) : Viewport T :=
  let targetSpan := fromZ 3 in
  let padding := lit_1_05 in
  let width := Math_max targetSpan (targetSpan * aspectRatio) * padding in
  let height := width / aspectRatio in
  createViewport lit_neg_0_5 (fromZ 0) width height.

Definition pixelToComplex (viewport : Viewport T)
    (pixelX pixelY canvasWidth canvasHeight : T) : ComplexPoint T :=
  let normalizedX := pixelX / canvasWidth in
  let normalizedY := pixelY / canvasHeight in
  let re := centerRe viewport - width viewport / fromZ 2 + normalizedX * width viewport in
  let im := centerIm viewport + height viewport / fromZ 2 - normalizedY * height viewport in
  mkComplex re im.

Definition complexToPixel (viewport : Viewport T)
    (re im canvasWidth canvasHeight : T) : PixelPoint T :=
  let normalizedX :=
    (re - (centerRe viewport - width viewport / fromZ 2)) / width viewport in
  let normalizedY :=
    (centerIm viewport + height viewport / fromZ 2 - im) / height viewport in
  let x := normalizedX * canvasWidth in
  let y := normalizedY * canvasHeight in
  mkPixel x y.

Definition zoomToRect (viewport : Viewport T) (rect : Rect.t T)
    (canvasSize : CanvasSize.t T) : Viewport T :=
  let aspectRatio := CanvasSize.width canvasSize / CanvasSize.height canvasSize in
  let centerPixelX := Rect.x rect + Rect.width rect / fromZ 2 in
  let centerPixelY := Rect.y rect + Rect.height rect / fromZ 2 in
  let centerComplex :=
    pixelToComplex viewport centerPixelX centerPixelY
      (CanvasSize.width canvasSize) (CanvasSize.height canvasSize) in
  let pixelWidth := Rect.width rect in
  let pixelHeight := Rect.height rect in
  let pixelAspect := pixelWidth / pixelHeight in
  if pixelAspect >? aspectRatio then
    let newWidth := (pixelWidth / CanvasSize.width canvasSize) * width viewport in
    let newHeight := newWidth / aspectRatio in
    createViewport (re centerComplex) (im centerComplex) newWidth newHeight
  else
    let newHeight := (pixelHeight / CanvasSize.height canvasSize) * height viewport in
    let newWidth := newHeight * aspectRatio in
    createViewport (re centerComplex) (im centerComplex) newWidth newHeight.

Definition getViewportBounds (viewport : Viewport T) : Bounds T :=
  let left := centerRe viewport - width viewport / fromZ 2 in
  let right := centerRe viewport + width viewport / fromZ 2 in
  let top := centerIm viewport + height viewport / fromZ 2 in
  let bottom := centerIm viewport - height viewport / fromZ 2 in
  mkBounds left right top bottom.

Definition getZoomFactor (viewport : Viewport T) : T :=
  let baseSpan := fromZ 3 * lit_1_05 in
  let visibleSpan := Math_min (width viewport) (height viewport) in
  baseSpan / visibleSpan.
End ViewportCode.

(** ** [src/core/mandelbrot.ts]

    The iteration budget is a natural number (the settings layer only hands
    out integer budgets); the loop counter [i] runs from [0] and the loop is
    entered while [i < maxIterations], so [fuel] below is the number of passes
    still allowed, [maxIterations - i]. *)

Section MandelbrotCode.
Context {T : Type} `{JsNum T}.
Local Open Scope js_scope.

Definition fromNat (n : nat) : T := fromZ (Z.of_nat n).

Definition bailout : T := fromZ 4.
Definition bailoutSq : T := bailout.

Definition magnitudeSq (zRe zIm : T) : T :=
  let zReSq := zRe * zRe in
  let zImSq := zIm * zIm in
  zReSq + zImSq.

(** The update [z <- z^2 + c] at the end of the loop body. *)
Definition next_z (cRe cIm zRe zIm : T) : T * T :=
  let zReSq := zRe * zRe in
  let zImSq := zIm * zIm in
  let temp := zReSq - zImSq + cRe in
  let zIm' := fromZ 2 * zRe * zIm + cIm in
  (temp, zIm').

Fixpoint escapeLoop (cRe cIm : T) (maxIterations fuel : nat)
    (zRe zIm : T) (i : nat) : nat :=
  match fuel with
  | O => maxIterations
  | S fuel' =>
      if magnitudeSq zRe zIm >? bailoutSq then i
      else
        let '(zRe', zIm') := next_z cRe cIm zRe zIm in
        escapeLoop cRe cIm maxIterations fuel' zRe' zIm' (S i)
  end.

Definition escapeIterations (cRe cIm : T) (maxIterations : nat) : nat :=
  escapeLoop cRe cIm maxIterations maxIterations (fromZ 0) (fromZ 0) 0.

Context `{JsMath T}.

Definition logBailout : T := Math_log bailout.

(** The value computed at the [return] inside the loop. *)
Definition smoothValue (zRe zIm : T) (i maxIterations : nat) : T :=
  let magnitude := Math_sqrt (magnitudeSq zRe zIm) in
  let logMag := Math_log magnitude in
  let smooth := fromNat i + fromZ 1 - logBailout / logMag in
  Math_min smooth (fromNat maxIterations).

Fixpoint smoothLoop (cRe cIm : T) (maxIterations fuel : nat)
    (zRe zIm : T) (i : nat) : T :=
  match fuel with
  | O => fromNat maxIterations
  | S fuel' =>
      if magnitudeSq zRe zIm >? bailoutSq then
        smoothValue zRe zIm i maxIterations
      else
        let '(zRe', zIm') := next_z cRe cIm zRe zIm in
        smoothLoop cRe cIm maxIterations fuel' zRe' zIm' (S i)
  end.

Definition smoothEscape (cRe cIm : T) (maxIterations : nat) : T :=
  smoothLoop cRe cIm maxIterations maxIterations (fromZ 0) (fromZ 0) 0.

Definition batchIterations (points : list (ComplexPoint T))
    (maxIterations : nat) (smooth : bool) : list T :=
  let compute cRe cIm n :=
    if smooth then smoothEscape cRe cIm n
    else fromNat (escapeIterations cRe cIm n) in
  List.map (fun p => compute (re p) (im p) maxIterations) points.
End MandelbrotCode.

(** ** [src/renderer/webgl/shaders.ts]: the smooth iteration count

    The fragment shader computes the continuous iteration count in the form
    the documentation of the repository gives as the intended one,
    [i + 1 - log2 (log2 |z|)]. *)

Section ShaderCode.
Context {T : Type} `{JsNum T} `{JsMath T}.
Local Open Scope js_scope.

(** GLSL's [log2]. *)
Definition glsl_log2 (x : T) : T := Math_log x / Math_log (fromZ 2).

(** [smoothIter] of the fragment shader, for an orbit that left the loop at
    iteration [i] with [z = zRe + i zIm]. *)
Definition smoothIter (zRe zIm : T) (i : nat) : T :=
  let zReSq := zRe * zRe in
  let zImSq := zIm * zIm in
  let magnitude := Math_sqrt (zReSq + zImSq) in
  let magnitude := Math_max magnitude (fromZ 10000001 / fromZ 10000000) in
  let nu := glsl_log2 (glsl_log2 magnitude) in
  fromNat i + fromZ 1 - nu.
End ShaderCode.

(** ** [src/renderer/renderController.ts]

    The controller runs on the browser's event loop.  The model makes the part
    of the browser it talks to explicit: the table of [requestAnimationFrame]
    callbacks that have been requested and not yet run or cancelled, the table
    of pending [setTimeout] callbacks, and the counters from which both hand
    out their (non-zero) handles.  Calls into the renderer and into the
    caller's completion callbacks are recorded, in order, in [output]. *)

Inductive Quality := low | medium | high | ultra.
Inductive DebugMode := debug_none | debug_gradient | debug_grayscale.

Record RenderSettings (T : Type) := mkSettings {
  maxIterations : T;
  smoothColoring : bool;
  gamma : T;
  insideColor : T * T * T;
  palette : string;
  quality : Quality;
  progressiveRefinement : bool;
  reduceQualityWhileDragging : bool;
  debugMode : option DebugMode;
  zoomFactor : option T;
}.
Arguments mkSettings {T}.
Arguments maxIterations {T}.
Arguments smoothColoring {T}.
Arguments gamma {T}.
Arguments insideColor {T}.
Arguments palette {T}.
Arguments quality {T}.
Arguments progressiveRefinement {T}.
Arguments reduceQualityWhileDragging {T}.
Arguments debugMode {T}.
Arguments zoomFactor {T}.

Definition getQualityIterations (q : Quality) : Z :=
  match q with
  | low => 64
  | medium => 128
  | high => 256
  | ultra => 512
  end.

Definition getProgressiveIterations (q : Quality) (isDragging : bool) : Z :=
  let base := getQualityIterations q in
  if isDragging then Z.max 32 (base / 4) else base.

(** What the controller does to the outside world: calls of the renderer, and
    calls of the completion callback a caller passed in.  A callback is the
    caller's code; the model records that it was called, with which viewport,
    and identifies it by a number.  Whatever the callback then asks of the
    controller is one more event of the history. *)
Inductive Output (T : Type) :=
| updatePalette (p : string)
| rendererRender (viewport : Viewport T) (settings : RenderSettings T)
| onCompleteCall (callback : nat) (finalViewport : Viewport T)
| rendererDestroy.
Arguments updatePalette {T}.
Arguments rendererRender {T}.
Arguments onCompleteCall {T}.
Arguments rendererDestroy {T}.

(** The closures handed to [requestAnimationFrame], with what they capture:
    [step] of [animateZoom], [step] of [startHoldZoom], and the arrow function
    of [render]/[scheduleRender]. *)
Inductive FrameCallback (T : Type) :=
| AnimStep (start : Viewport T) (settings : RenderSettings T)
    (target : ComplexPoint T) (aspectRatio startTime : T) (onComplete : option nat)
| HoldStep (start : Viewport T) (settings : RenderSettings T)
    (target : ComplexPoint T) (aspectRatio startTime : T)
| RenderFrame.
Arguments AnimStep {T}.
Arguments HoldStep {T}.
Arguments RenderFrame {T}.

(** The closure handed to [setTimeout] by [render]. *)
Inductive TimerCallback := Debounce.

Record RenderController (T : Type) := mkController {
  renderRequestId : option nat;
  debounceTimeoutId : option nat;
  animationFrameId : option nat;
  holdZoomFrameId : option nat;
  holdLastViewport : option (Viewport T);
  lastViewport : option (Viewport T);
  lastSettings : option (RenderSettings T);
}.
Arguments mkController {T}.
Arguments renderRequestId {T}.
Arguments debounceTimeoutId {T}.
Arguments animationFrameId {T}.
Arguments holdZoomFrameId {T}.
Arguments holdLastViewport {T}.
Arguments lastViewport {T}.
Arguments lastSettings {T}.

Record World (T : Type) := mkWorld {
  this : RenderController T;
  frames : gmap nat (FrameCallback T);
  timers : gmap nat TimerCallback;
  nextFrame : nat;
  nextTimer : nat;
  output : list (Output T);
}.
Arguments mkWorld {T}.
Arguments this {T}.
Arguments frames {T}.
Arguments timers {T}.
Arguments nextFrame {T}.
Arguments nextTimer {T}.
Arguments output {T}.

(** A handle is a number or [null]; [if (handle)] also rejects [0]. *)
Definition truthy (handle : option nat) : option nat :=
  match handle with
  | Some (S n) => Some (S n)
  | _ => None
  end.

(** An interaction with the controller: a call of one of its public methods
    (with the value [performance.now()] returns during the call, where the
    method reads the clock), or the browser running a pending callback. *)
Inductive Event (T : Type) :=
| EAnimateZoom (viewport : Viewport T) (settings : RenderSettings T)
    (target : ComplexPoint T) (aspectRatio : T) (onComplete : option nat) (now : T)
| EStartHoldZoom (viewport : Viewport T) (settings : RenderSettings T)
    (target : ComplexPoint T) (aspectRatio : T) (now : T)
| EStopHoldZoom (settings : RenderSettings T) (onComplete : option nat)
| EStartInteraction
| EEndInteraction
| ERender (viewport : Viewport T) (settings : RenderSettings T) (debounce : bool)
| ECancel
| EDestroy
| EFrame (id : nat) (now : T)
| ETimeout (id : nat).
Arguments EAnimateZoom {T}.
Arguments EStartHoldZoom {T}.
Arguments EStopHoldZoom {T}.
Arguments EStartInteraction {T}.
Arguments EEndInteraction {T}.
Arguments ERender {T}.
Arguments ECancel {T}.
Arguments EDestroy {T}.
Arguments EFrame {T}.
Arguments ETimeout {T}.

(** Statements of the methods run in sequence and mutate [this] and the
    browser's tables: a state monad over [World]. *)
Definition St (T A : Type) : Type := World T → A * World T.

#[export] Instance St_ret {T} : MRet (St T) := λ A a w, (a, w).
#[export] Instance St_bind {T} : MBind (St T) :=
  λ A B f m w, let '(a, w') := m w in f a w'.

Definition exec {T A} (m : St T A) (w : World T) : World T := snd (m w).

Section SchedulerPrimitives.
Context {T : Type}.

Definition skip : St T unit := mret ().

Definition getThis : St T (RenderController T) := λ w, (this w, w).

Definition modifyThis (f : RenderController T → RenderController T) : St T unit :=
  λ w, ((), mkWorld (f (this w)) (frames w) (timers w)
              (nextFrame w) (nextTimer w) (output w)).

Definition set_renderRequestId (v : option nat) : St T unit :=
  modifyThis (λ c, mkController v (debounceTimeoutId c) (animationFrameId c)
    (holdZoomFrameId c) (holdLastViewport c) (lastViewport c) (lastSettings c)).
Definition set_debounceTimeoutId (v : option nat) : St T unit :=
  modifyThis (λ c, mkController (renderRequestId c) v (animationFrameId c)
    (holdZoomFrameId c) (holdLastViewport c) (lastViewport c) (lastSettings c)).
Definition set_animationFrameId (v : option nat) : St T unit :=
  modifyThis (λ c, mkController (renderRequestId c) (debounceTimeoutId c) v
    (holdZoomFrameId c) (holdLastViewport c) (lastViewport c) (lastSettings c)).
Definition set_holdZoomFrameId (v : option nat) : St T unit :=
  modifyThis (λ c, mkController (renderRequestId c) (debounceTimeoutId c)
    (animationFrameId c) v (holdLastViewport c) (lastViewport c) (lastSettings c)).
Definition set_holdLastViewport (v : option (Viewport T)) : St T unit :=
  modifyThis (λ c, mkController (renderRequestId c) (debounceTimeoutId c)
    (animationFrameId c) (holdZoomFrameId c) v (lastViewport c) (lastSettings c)).
Definition set_lastViewport (v : option (Viewport T)) : St T unit :=
  modifyThis (λ c, mkController (renderRequestId c) (debounceTimeoutId c)
    (animationFrameId c) (holdZoomFrameId c) (holdLastViewport c) v (lastSettings c)).
Definition set_lastSettings (v : option (RenderSettings T)) : St T unit :=
  modifyThis (λ c, mkController (renderRequestId c) (debounceTimeoutId c)
    (animationFrameId c) (holdZoomFrameId c) (holdLastViewport c) (lastViewport c) v).

(** The browser registers the callback under a fresh handle. *)
Definition requestAnimationFrame (cb : FrameCallback T) : St T nat :=
  λ w, (nextFrame w,
        mkWorld (this w) (<[nextFrame w := cb]> (frames w)) (timers w)
          (S (nextFrame w)) (nextTimer w) (output w)).

Definition cancelAnimationFrame (id : nat) : St T unit :=
  λ w, ((), mkWorld (this w) (delete id (frames w)) (timers w)
              (nextFrame w) (nextTimer w) (output w)).

Definition setTimeout (cb : TimerCallback) : St T nat :=
  λ w, (nextTimer w,
        mkWorld (this w) (frames w) (<[nextTimer w := cb]> (timers w))
          (nextFrame w) (S (nextTimer w)) (output w)).

Definition clearTimeout (id : nat) : St T unit :=
  λ w, ((), mkWorld (this w) (frames w) (delete id (timers w))
              (nextFrame w) (nextTimer w) (output w)).

Definition emit (o : Output T) : St T unit :=
  λ w, ((), mkWorld (this w) (frames w) (timers w)
              (nextFrame w) (nextTimer w) (output w ++ [o])).

(** [if (handle) { body(handle) }] *)
Definition ifHandle (handle : option nat) (body : nat → St T unit) : St T unit :=
  match truthy handle with
  | Some id => body id
  | None => skip
  end.

(** [if (onComplete) { onComplete(v) }] *)
Definition callOnComplete (onComplete : option nat) (v : Viewport T) : St T unit :=
  match onComplete with
  | Some cb => emit (onCompleteCall cb v)
  | None => skip
  end.

(** A freshly constructed controller in a browser with nothing pending. *)
Definition initial : World T :=
  mkWorld (mkController None None None None None None None) ∅ ∅ 1 1 [].
End SchedulerPrimitives.

Section Scheduler.
Context {T : Type} `{JsNum T} `{JsMath T}.
Local Open Scope js_scope.

Definition DEBOUNCE_DELAY : T := fromZ 200.

Definition cancel : St T unit :=
  c ← getThis;
  ifHandle (holdZoomFrameId c) (λ id,
    cancelAnimationFrame id;; set_holdZoomFrameId None);;
  set_holdLastViewport None;;
  c ← getThis;
  ifHandle (animationFrameId c) (λ id,
    cancelAnimationFrame id;; set_animationFrameId None);;
  c ← getThis;
  ifHandle (renderRequestId c) (λ id,
    cancelAnimationFrame id;; set_renderRequestId None);;
  c ← getThis;
  ifHandle (debounceTimeoutId c) (λ id,
    clearTimeout id;; set_debounceTimeoutId None).

Definition destroy : St T unit :=
  cancel;;
  emit rendererDestroy.

Definition performRender : St T unit :=
  c ← getThis;
  match lastViewport c, lastSettings c with
  | Some viewport, Some settings =>
      emit (updatePalette (palette settings));;
      emit (rendererRender viewport settings)
  | _, _ => skip
  end.

Definition scheduleRender : St T unit :=
  c ← getThis;
  ifHandle (renderRequestId c) cancelAnimationFrame;;
  id ← requestAnimationFrame RenderFrame;
  set_renderRequestId (Some id).

(** [{ ...settings, maxIterations: progressiveIterations }] *)
Definition animSettingsOf (settings : RenderSettings T) : RenderSettings T :=
  let progressiveIterations := getProgressiveIterations (quality settings) true in
  mkSettings (fromZ progressiveIterations) (smoothColoring settings) (gamma settings)
    (insideColor settings) (palette settings) (quality settings)
    (progressiveRefinement settings) (reduceQualityWhileDragging settings)
    (debugMode settings) (zoomFactor settings).

Definition animateZoom (viewport : Viewport T) (settings : RenderSettings T)
    (target : ComplexPoint T) (aspectRatio : T) (onComplete : option nat)
    (now : T) : St T unit :=
  cancel;;
  emit (updatePalette (palette settings));;
  id ← requestAnimationFrame
         (AnimStep viewport settings target aspectRatio now onComplete);
  set_animationFrameId (Some id).

Definition easeInOutQuad (t : T) : T :=
  if t <? fromZ 1 / fromZ 2 then fromZ 2 * t * t
  else fromZ (-1) + (fromZ 4 - fromZ 2 * t) * t.

(** The viewport [step] of [animateZoom] draws at eased progress [e]. *)
Definition animViewport (start : Viewport T) (settings : RenderSettings T)
    (target : ComplexPoint T) (aspectRatio e : T) : Viewport T :=
  let zoomFactor := default (fromZ 2) (zoomFactor settings) in
  let targetWidth := width start / zoomFactor in
  let centerRe := centerRe start + (re target - centerRe start) * e in
  let centerIm := centerIm start + (im target - centerIm start) * e in
  let width := width start + (targetWidth - width start) * e in
  let height := width / aspectRatio in
  mkViewport centerRe centerIm width height.

Definition animStep (start : Viewport T) (settings : RenderSettings T)
    (target : ComplexPoint T) (aspectRatio startTime : T)
    (onComplete : option nat) (now : T) : St T unit :=
  let durationMs := fromZ 450 in
  let t := Math_min (fromZ 1) ((now - startTime) / durationMs) in
  let e := easeInOutQuad t in
  let currentViewport := animViewport start settings target aspectRatio e in
  emit (rendererRender currentViewport (animSettingsOf settings));;
  if t <? fromZ 1 then
    id ← requestAnimationFrame
           (AnimStep start settings target aspectRatio startTime onComplete);
    set_animationFrameId (Some id)
  else
    emit (rendererRender currentViewport settings);;
    set_lastViewport (Some currentViewport);;
    set_lastSettings (Some settings);;
    set_animationFrameId None;;
    callOnComplete onComplete currentViewport.

Definition startHoldZoom (viewport : Viewport T) (settings : RenderSettings T)
    (target : ComplexPoint T) (aspectRatio : T) (now : T) : St T unit :=
  cancel;;
  emit (updatePalette (palette settings));;
  id ← requestAnimationFrame (HoldStep viewport settings target aspectRatio now);
  set_holdZoomFrameId (Some id).

Definition holdViewport (start : Viewport T) (target : ComplexPoint T)
    (aspectRatio startTime now : T) : Viewport T :=
  let zoomRatePerSec := fromZ 16 / fromZ 10 in
  let elapsedSec := Math_max (fromZ 0) ((now - startTime) / fromZ 1000) in
  let factor := Math_exp (neg zoomRatePerSec * elapsedSec) in
  let width := width start * factor in
  let height := width / aspectRatio in
  mkViewport (re target) (im target) width height.

Definition holdStep (start : Viewport T) (settings : RenderSettings T)
    (target : ComplexPoint T) (aspectRatio startTime : T) (now : T) : St T unit :=
  let currentViewport := holdViewport start target aspectRatio startTime now in
  set_holdLastViewport (Some currentViewport);;
  emit (rendererRender currentViewport (animSettingsOf settings));;
  id ← requestAnimationFrame (HoldStep start settings target aspectRatio startTime);
  set_holdZoomFrameId (Some id).

Definition stopHoldZoom (settings : RenderSettings T) (onComplete : option nat)
    : St T unit :=
  c ← getThis;
  ifHandle (holdZoomFrameId c) (λ id,
    cancelAnimationFrame id;; set_holdZoomFrameId None);;
  c ← getThis;
  match holdLastViewport c with
  | Some v =>
      emit (rendererRender v settings);;
      set_lastViewport (Some v);;
      set_lastSettings (Some settings);;
      callOnComplete onComplete v
  | None => skip
  end;;
  set_holdLastViewport None.

Definition startInteraction : St T unit :=
  c ← getThis;
  ifHandle (debounceTimeoutId c) (λ id,
    clearTimeout id;; set_debounceTimeoutId None).

Definition endInteraction : St T unit := scheduleRender.

Definition render (viewport : Viewport T) (settings : RenderSettings T)
    (debounce : bool) : St T unit :=
  set_lastViewport (Some viewport);;
  set_lastSettings (Some settings);;
  c ← getThis;
  if debounce then
    ifHandle (debounceTimeoutId c) clearTimeout;;
    id ← setTimeout Debounce;
    set_debounceTimeoutId (Some id)
  else
    ifHandle (renderRequestId c) cancelAnimationFrame;;
    id ← requestAnimationFrame RenderFrame;
    set_renderRequestId (Some id).

(** Bodies of the pending callbacks. *)
Definition runFrame (cb : FrameCallback T) (now : T) : St T unit :=
  match cb with
  | AnimStep start settings target aspectRatio startTime onComplete =>
      animStep start settings target aspectRatio startTime onComplete now
  | HoldStep start settings target aspectRatio startTime =>
      holdStep start settings target aspectRatio startTime now
  | RenderFrame => performRender;; set_renderRequestId None
  end.

Definition runTimer (cb : TimerCallback) : St T unit :=
  match cb with
  | Debounce => performRender;; set_debounceTimeoutId None
  end.

(** The browser runs a pending callback once and forgets it; a handle that
    is not pending (never issued, already run, or cancelled) runs nothing. *)
Definition fireFrame (id : nat) (now : T) : St T unit :=
  λ w, match frames w !! id with
       | Some cb => (cancelAnimationFrame id;; runFrame cb now) w
       | None => ((), w)
       end.

Definition fireTimer (id : nat) : St T unit :=
  λ w, match timers w !! id with
       | Some cb => (clearTimeout id;; runTimer cb) w
       | None => ((), w)
       end.

Definition handle (e : Event T) : St T unit :=
  match e with
  | EAnimateZoom viewport settings target aspectRatio onComplete now =>
      animateZoom viewport settings target aspectRatio onComplete now
  | EStartHoldZoom viewport settings target aspectRatio now =>
      startHoldZoom viewport settings target aspectRatio now
  | EStopHoldZoom settings onComplete => stopHoldZoom settings onComplete
  | EStartInteraction => startInteraction
  | EEndInteraction => endInteraction
  | ERender viewport settings debounce => render viewport settings debounce
  | ECancel => cancel
  | EDestroy => destroy
  | EFrame id now => fireFrame id now
  | ETimeout id => fireTimer id
  end.

Definition step (w : World T) (e : Event T) : World T := exec (handle e) w.

(** The world after a history of events, oldest first. *)
Definition run (events : list (Event T)) (w : World T) : World T :=
  fold_left step events w.
End Scheduler.

(** ** [src/state/store.ts] *)

(** [a !== b] on numbers: false on equal numbers, true as soon as one side is
    NaN. *)
Class JsEq (T : Type) := {
  strict_ne : T → T → bool;
}.

#[export] Instance R_JsEq : JsEq R := {|
  strict_ne a b := if Req_dec_T a b then false else true;
|}.

#[export] Instance F_JsEq : JsEq float := {|
  strict_ne a b := negb (PrimFloat.eqb a b);
|}.

Record RenderStats (T : Type) := mkStats {
  iterationCount : T;
  renderTime : T;
  frameTime : T;
}.
Arguments mkStats {T}.
Arguments iterationCount {T}.
Arguments renderTime {T}.
Arguments frameTime {T}.

(** [Array.prototype.pop] and [Array.prototype.shift] on a copy of the
    array: the element removed ([undefined] on an empty array) and what is
    left. *)
Definition Array_pop {A} (l : list A) : option A * list A := (last l, removelast l).
Definition Array_shift {A} (l : list A) : option A * list A := (head l, tail l).

Module Store.

Record AppState (T : Type) := mkState {
  viewport : Viewport T;
  viewportHistory : list (Viewport T);
  viewportFuture : list (Viewport T);
  renderSettings : RenderSettings T;
  sidePanelOpen : bool;
  isExporting : bool;
  exportProgress : T;
  renderStats : RenderStats T;
}.
Arguments mkState {T}.
Arguments viewport {T}.
Arguments viewportHistory {T}.
Arguments viewportFuture {T}.
Arguments renderSettings {T}.
Arguments sidePanelOpen {T}.
Arguments isExporting {T}.
Arguments exportProgress {T}.
Arguments renderStats {T}.

(** [Partial<RenderSettings>] and [Partial<RenderStats>]: a key is absent
    ([None]) or carries a value. *)
Record SettingsPatch (T : Type) := mkSettingsPatch {
  set_maxIterations : option T;
  set_smoothColoring : option bool;
  set_gamma : option T;
  set_insideColor : option (T * T * T);
  set_palette : option string;
  set_quality : option Quality;
  set_progressiveRefinement : option bool;
  set_reduceQualityWhileDragging : option bool;
  set_debugMode : option (option DebugMode);
  set_zoomFactor : option (option T);
}.
Arguments mkSettingsPatch {T}.
Arguments set_maxIterations {T}.
Arguments set_smoothColoring {T}.
Arguments set_gamma {T}.
Arguments set_insideColor {T}.
Arguments set_palette {T}.
Arguments set_quality {T}.
Arguments set_progressiveRefinement {T}.
Arguments set_reduceQualityWhileDragging {T}.
Arguments set_debugMode {T}.
Arguments set_zoomFactor {T}.

Record StatsPatch (T : Type) := mkStatsPatch {
  set_iterationCount : option T;
  set_renderTime : option T;
  set_frameTime : option T;
}.
Arguments mkStatsPatch {T}.
Arguments set_iterationCount {T}.
Arguments set_renderTime {T}.
Arguments set_frameTime {T}.

Section Actions.
Context {T : Type} `{JsNum T} `{JsEq T}.
Local Open Scope js_scope.

(** Zustand's [set(partial)] merges the given keys into the state. *)
Definition with_viewport (v : Viewport T) (s : AppState T) : AppState T :=
  mkState v (viewportHistory s) (viewportFuture s) (renderSettings s)
    (sidePanelOpen s) (isExporting s) (exportProgress s) (renderStats s).

Definition with_viewportFuture (f : list (Viewport T)) (s : AppState T) : AppState T :=
  mkState (viewport s) (viewportHistory s) f (renderSettings s)
    (sidePanelOpen s) (isExporting s) (exportProgress s) (renderStats s).

Definition with_navigation (v : Viewport T) (h f : list (Viewport T))
    (s : AppState T) : AppState T :=
  mkState v h f (renderSettings s)
    (sidePanelOpen s) (isExporting s) (exportProgress s) (renderStats s).

Definition initialState : AppState T :=
  mkState (resetViewport (fromZ 16 / fromZ 9)) [] []
    (mkSettings (fromZ 256) true (fromZ 1)
       (fromZ 25 / fromZ 100, fromZ 1, fromZ 1 / fromZ 10)
       "classic" high true true (Some debug_none) (Some (fromZ 2)))
    true false (fromZ 0)
    (mkStats (fromZ 0) (fromZ 0) (fromZ 0)).

Definition setViewport (viewport : Viewport T) (s : AppState T) : AppState T :=
  let s := with_viewport viewport s in
  with_viewportFuture [] s.

Definition pushViewportHistory (viewport : Viewport T) (s : AppState T) : AppState T :=
  let current := Store.viewport s in
  if strict_ne (centerRe current) (centerRe viewport)
     || strict_ne (centerIm current) (centerIm viewport)
     || strict_ne (width current) (width viewport)
     || strict_ne (height current) (height viewport)
  then with_navigation viewport (viewportHistory s ++ [current]) [] s
  else s.

Definition undo (s : AppState T) : AppState T :=
  let viewportHistory := Store.viewportHistory s in
  let viewport := Store.viewport s in
  if bool_decide (0 < length viewportHistory) then
    match Array_pop viewportHistory with
    | (Some previous, newHistory) =>
        with_navigation previous newHistory (viewport :: viewportFuture s) s
    | (None, _) => s
    end
  else s.

Definition redo (s : AppState T) : AppState T :=
  let viewportFuture := Store.viewportFuture s in
  let viewport := Store.viewport s in
  if bool_decide (0 < length viewportFuture) then
    match Array_shift viewportFuture with
    | (Some next, newFuture) =>
        with_navigation next (viewportHistory s ++ [viewport]) newFuture s
    | (None, _) => s
    end
  else s.

Definition reset (aspectRatio : T) (s : AppState T) : AppState T :=
  let current := Store.viewport s in
  let reset := resetViewport aspectRatio in
  with_navigation reset (viewportHistory s ++ [current]) [] s.

(** [{ ...state.renderSettings, ...settings }] *)
Definition updateRenderSettings (settings : SettingsPatch T) (s : AppState T)
    : AppState T :=
  let old := renderSettings s in
  mkState (viewport s) (viewportHistory s) (viewportFuture s)
    (mkSettings
       (default (maxIterations old) (set_maxIterations settings))
       (default (smoothColoring old) (set_smoothColoring settings))
       (default (gamma old) (set_gamma settings))
       (default (insideColor old) (set_insideColor settings))
       (default (palette old) (set_palette settings))
       (default (quality old) (set_quality settings))
       (default (progressiveRefinement old) (set_progressiveRefinement settings))
       (default (reduceQualityWhileDragging old)
          (set_reduceQualityWhileDragging settings))
       (default (debugMode old) (set_debugMode settings))
       (default (zoomFactor old) (set_zoomFactor settings)))
    (sidePanelOpen s) (isExporting s) (exportProgress s) (renderStats s).

Definition setSidePanelOpen (open : bool) (s : AppState T) : AppState T :=
  mkState (viewport s) (viewportHistory s) (viewportFuture s) (renderSettings s)
    open (isExporting s) (exportProgress s) (renderStats s).

Definition setExporting (exporting : bool) (s : AppState T) : AppState T :=
  mkState (viewport s) (viewportHistory s) (viewportFuture s) (renderSettings s)
    (sidePanelOpen s) exporting (exportProgress s) (renderStats s).

Definition setExportProgress (progress : T) (s : AppState T) : AppState T :=
  mkState (viewport s) (viewportHistory s) (viewportFuture s) (renderSettings s)
    (sidePanelOpen s) (isExporting s)
    (Math_max (fromZ 0) (Math_min (fromZ 1) progress)) (renderStats s).

Definition setRenderStats (stats : StatsPatch T) (s : AppState T) : AppState T :=
  let old := renderStats s in
  mkState (viewport s) (viewportHistory s) (viewportFuture s) (renderSettings s)
    (sidePanelOpen s) (isExporting s) (exportProgress s)
    (mkStats
       (default (iterationCount old) (set_iterationCount stats))
       (default (renderTime old) (set_renderTime stats))
       (default (frameTime old) (set_frameTime stats))).

(** The selectors behind the undo and redo buttons. *)
Definition useCanUndo (s : AppState T) : bool :=
  bool_decide (0 < length (viewportHistory s)).
Definition useCanRedo (s : AppState T) : bool :=
  bool_decide (0 < length (viewportFuture s)).
End Actions.
End Store.

(** ** [src/ui/App.tsx] *)

Module App.
Section Handlers.
Context {T : Type} `{JsNum T} `{JsMath T}.

(** [{ ...cfg, maxIterations: RenderController.getProgressiveIterations(cfg.quality, false) }] *)
Definition adjustedSettings (cfg : RenderSettings T) : RenderSettings T :=
  mkSettings (fromZ (getProgressiveIterations (quality cfg) false))
    (smoothColoring cfg) (gamma cfg) (insideColor cfg) (palette cfg) (quality cfg)
    (progressiveRefinement cfg) (reduceQualityWhileDragging cfg)
    (debugMode cfg) (zoomFactor cfg).

(** [performRender] of the component, once the controller exists: what runs
    on every change of the viewport or of the settings. *)
Definition performRender (vp : Viewport T) (cfg : RenderSettings T) : St T unit :=
  render vp (adjustedSettings cfg) false.
End Handlers.
End App.

(** * Vocabulary of the specification *)

(** ** Geometry *)

Section GeometryVocabulary.
Local Open Scope R_scope.

(** The invariant of the [Viewport] type: both spans are positive. *)
Definition valid_viewport (v : Viewport R) : Prop :=
  0 < width v ∧ 0 < height v.

Definition positive_canvas (c : CanvasSize.t R) : Prop :=
  0 < CanvasSize.width c ∧ 0 < CanvasSize.height c.

Definition positive_rect (r : Rect.t R) : Prop :=
  0 < Rect.width r ∧ 0 < Rect.height r.

(** Agreement of two reals up to a tolerance. *)
Definition close_to (tolerance a b : R) : Prop := Rabs (a - b) <= tolerance.
End GeometryVocabulary.

Section Binary64Vocabulary.
Local Open Scope float_scope.


Definition home_16_9 : Viewport float := resetViewport (16 / 9).

End Binary64Vocabulary.

(** ** The kernel *)

Section KernelVocabulary.
Context {T : Type} `{JsNum T}.
Local Open Scope js_scope.

(** The orbit [z_0 = 0], [z_(k+1) = z_k^2 + c], as the loop computes it. *)
Fixpoint orbit (cRe cIm : T) (k : nat) : T * T :=
  match k with
  | O => (fromZ 0, fromZ 0)
  | S k' => let '(zRe, zIm) := orbit cRe cIm k' in next_z cRe cIm zRe zIm
  end.

(** [escaped c k]: the bailout test [|z_k|^2 > 4] succeeds. *)
Definition escaped (cRe cIm : T) (k : nat) : bool :=
  let '(zRe, zIm) := orbit cRe cIm k in magnitudeSq zRe zIm >? bailoutSq.
End KernelVocabulary.

(** ** Scheduling *)

Section SchedulerVocabulary.
Context {T : Type} `{JsNum T} `{JsMath T}.

(** The three uses the controller makes of [requestAnimationFrame]. *)
Inductive FrameKind := ZoomAnimation | HoldZoomLoop | ScheduledRender.

Definition frameKind (cb : FrameCallback T) : FrameKind :=
  match cb with
  | AnimStep _ _ _ _ _ _ => ZoomAnimation
  | HoldStep _ _ _ _ _ => HoldZoomLoop
  | RenderFrame => ScheduledRender
  end.

(** The field of the controller that remembers the handle of each kind. *)
Definition frameHandle (k : FrameKind) (c : RenderController T) : option nat :=
  match k with
  | ZoomAnimation => animationFrameId c
  | HoldZoomLoop => holdZoomFrameId c
  | ScheduledRender => renderRequestId c
  end.

(** Timing sources that can still fire: pending frame callbacks and pending
    timers. *)
Definition active_sources (w : World T) : nat :=
  size (frames w) + size (timers w).

(** The invariant of the controller in its browser: handles are numbers the
    browser has issued, handles of different kinds are different numbers,
    every pending callback is the one its kind's handle names, and the zoom
    animation and the hold-zoom loop are never both set. *)
Record consistent (w : World T) : Prop := mkConsistent {
  frame_counter_pos : 1 ≤ nextFrame w;
  timer_counter_pos : 1 ≤ nextTimer w;
  frame_handles_issued : ∀ k id,
    frameHandle k (this w) = Some id → 1 ≤ id < nextFrame w;
  timer_handle_issued : ∀ id,
    debounceTimeoutId (this w) = Some id → 1 ≤ id < nextTimer w;
  frame_handles_distinct : ∀ k k' id,
    frameHandle k (this w) = Some id → frameHandle k' (this w) = Some id → k = k';
  frames_named : ∀ id cb,
    frames w !! id = Some cb → frameHandle (frameKind cb) (this w) = Some id;
  timers_named : ∀ id cb,
    timers w !! id = Some cb → debounceTimeoutId (this w) = Some id;
  one_loop : animationFrameId (this w) = None ∨ holdZoomFrameId (this w) = None;
}.

Definition is_startHoldZoom (e : Event T) : bool :=
  match e with
  | EStartHoldZoom _ _ _ _ _ => true
  | _ => false
  end.

(** The event is the browser running a pending [step] of [startHoldZoom]. *)
Definition runs_hold_step (w : World T) (e : Event T) : bool :=
  match e with
  | EFrame id _ =>
      match frames w !! id with
      | Some (HoldStep _ _ _ _ _) => true
      | _ => false
      end
  | _ => false
  end.

(** Number of hold-zoom frames that run along a history. *)
Fixpoint hold_runs (events : list (Event T)) (w : World T) : nat :=
  match events with
  | [] => 0
  | e :: events' =>
      (if runs_hold_step w e then 1 else 0) + hold_runs events' (step w e)
  end.

(** The methods that reset [holdLastViewport] to [null]. *)
Definition clears_hold_viewport (e : Event T) : bool :=
  match e with
  | EStartHoldZoom _ _ _ _ _ | ECancel | EDestroy | EStopHoldZoom _ _
  | EAnimateZoom _ _ _ _ _ _ => true
  | _ => false
  end.

(** No hold-zoom frame is pending and none has left a viewport behind. *)
Definition hold_idle (w : World T) : Prop :=
  holdLastViewport (this w) = None ∧
  ∀ id cb, frames w !! id = Some cb → frameKind cb ≠ HoldZoomLoop.

(** The set of numbers a handle stands for. *)
Definition handle_set (h : option nat) : gset nat :=
  match h with
  | Some id => {[ id ]}
  | None => ∅
  end.
End SchedulerVocabulary.

(** ** Sample inputs *)

Section SampleInputs.
Local Open Scope R_scope.

Definition demo_viewport : Viewport R := mkViewport (-1 / 2) 0 4 3.

Definition demo_settings : RenderSettings R :=
  mkSettings 256 true 1 (0, 0, 0) "classic"%string high true true None (Some 2).

Definition demo_target : ComplexPoint R := mkComplex (-3 / 4) (1 / 10).
End SampleInputs.

(** ** Selections and bounds *)

Section SelectionVocabulary.
Local Open Scope R_scope.

(** The viewport has the aspect ratio of the canvas. *)
Definition fits_canvas (v : Viewport R) (c : CanvasSize.t R) : Prop :=
  width v = height v * (CanvasSize.width c / CanvasSize.height c).

(** A plane point lies inside the bounds, edges included. *)
Definition within (b : Bounds R) (p : ComplexPoint R) : Prop :=
  left b <= re p <= right b ∧ bottom b <= im p <= top b.

(** A pixel coordinate lies inside the rectangle, edges included. *)
Definition inside_rect (r : Rect.t R) (pixelX pixelY : R) : Prop :=
  Rect.x r <= pixelX <= Rect.x r + Rect.width r ∧
  Rect.y r <= pixelY <= Rect.y r + Rect.height r.
End SelectionVocabulary.

(** ** Sessions of the scheduler *)

Section SessionVocabulary.
Context {T : Type} `{JsNum T} `{JsMath T}.

(** The browser running a callback, as opposed to a call of a method. *)
Definition is_browser_event (e : Event T) : bool :=
  match e with
  | EFrame _ _ | ETimeout _ => true
  | _ => false
  end.

(** Events that hand no viewport to the controller: everything but [render],
    [animateZoom], [startHoldZoom] and [destroy]. *)
Definition brings_no_viewport (e : Event T) : bool :=
  match e with
  | ERender _ _ _ | EAnimateZoom _ _ _ _ _ _ | EStartHoldZoom _ _ _ _ _ | EDestroy => false
  | _ => true
  end.

(** The controller holds no handle and the browser no callback. *)
Definition quiescent (w : World T) : Prop :=
  frames w = ∅ ∧ timers w = ∅ ∧
  renderRequestId (this w) = None ∧ debounceTimeoutId (this w) = None ∧
  animationFrameId (this w) = None ∧ holdZoomFrameId (this w) = None ∧
  holdLastViewport (this w) = None.

(** The browser running the frames of a loop one after the other: each frame
    of a loop is requested by the one before it, so their handles are
    consecutive. *)
Fixpoint frames_from (id : nat) (times : list T) : list (Event T) :=
  match times with
  | [] => []
  | now :: times' => EFrame id now :: frames_from (S id) times'
  end.

(** The progress [t] that [step] of [animateZoom] computes. *)
Definition animProgress (startTime now : T) : T :=
  Math_min (fromZ 1) (div (sub now startTime) (fromZ 450)).

(** The viewport a frame of the zoom animation draws. *)
Definition animFrame (start : Viewport T) (settings : RenderSettings T)
    (target : ComplexPoint T) (aspectRatio startTime now : T) : Viewport T :=
  animViewport start settings target aspectRatio
    (easeInOutQuad (animProgress startTime now)).

(** What a completion callback, if one was given, adds to the output. *)
Definition completion (onComplete : option nat) (v : Viewport T) : list (Output T) :=
  match onComplete with
  | Some cb => [onCompleteCall cb v]
  | None => []
  end.

(** The controller while a hold-zoom loop runs and nothing else is pending. *)
Definition holding (w : World T) (id : nat) (cb : FrameCallback T)
    (hl : option (Viewport T)) (out : list (Output T)) : World T :=
  mkWorld
    (mkController None None None (Some id) hl
       (lastViewport (this w)) (lastSettings (this w)))
    {[ id := cb ]} ∅ (S id) (nextTimer w) out.

(** The controller while a zoom animation runs and nothing else is pending. *)
Definition animating (w : World T) (id : nat) (cb : FrameCallback T)
    (out : list (Output T)) : World T :=
  mkWorld
    (mkController None None (Some id) None None
       (lastViewport (this w)) (lastSettings (this w)))
    {[ id := cb ]} ∅ (S id) (nextTimer w) out.

(** The controller with nothing pending. *)
Definition idle (w : World T) (nf : nat) (lv : option (Viewport T))
    (ls : option (RenderSettings T)) (out : list (Output T)) : World T :=
  mkWorld (mkController None None None None None lv ls) ∅ ∅ nf (nextTimer w) out.

(** The controller has been handed no viewport yet and has drawn nothing. *)
Definition blank (w : World T) : Prop :=
  lastViewport (this w) = None ∧
  holdLastViewport (this w) = None ∧
  output w = [] ∧
  ∀ id cb, frames w !! id = Some cb → cb = RenderFrame.
End SessionVocabulary.

(** ** The store *)

Section StoreVocabulary.
Context {T : Type} `{JsNum T} `{JsEq T}.

(** The views in the order the user went through them: the undo stack, the
    current view, the redo stack. *)
Definition timeline (s : Store.AppState T) : list (Viewport T) :=
  Store.viewportHistory s ++ Store.viewport s :: Store.viewportFuture s.

(** What the store holds besides the navigation state. *)
Definition beside_navigation (s : Store.AppState T) :=
  (Store.renderSettings s, Store.sidePanelOpen s, Store.isExporting s,
   Store.exportProgress s, Store.renderStats s).

Inductive HistoryMove := Undo | Redo.

Definition move (s : Store.AppState T) (m : HistoryMove) : Store.AppState T :=
  match m with
  | Undo => Store.undo s
  | Redo => Store.redo s
  end.

Definition moves (ms : list HistoryMove) (s : Store.AppState T) : Store.AppState T :=
  fold_left move ms s.

(** The test of [pushViewportHistory]. *)
Definition differs (a b : Viewport T) : bool :=
  strict_ne (centerRe a) (centerRe b)
  || strict_ne (centerIm a) (centerIm b)
  || strict_ne (width a) (width b)
  || strict_ne (height a) (height b).
End StoreVocabulary.

Section StoreBinary64Vocabulary.
(** One of the four fields of the view is NaN. *)
Definition has_nan (v : Viewport float) : bool :=
  is_nan (centerRe v) || is_nan (centerIm v) || is_nan (width v) || is_nan (height v).
End StoreBinary64Vocabulary.

(** * Properties *)

(** ** Viewport geometry over the reals *)

Section ViewportLaws.
Local Open Scope R_scope.

Lemma gt_R_true (a b : R) : b < a → (a >? b)%js = true.
Proof. intros Hlt. simpl. destruct (Rlt_dec b a); [reflexivity | contradiction]. Qed.

Lemma gt_R_false (a b : R) : a <= b → (a >? b)%js = false.
Proof. intros Hle. simpl. destruct (Rlt_dec b a); [lra | reflexivity]. Qed.

Lemma gt_R_spec (a b : R) : (a >? b)%js = true ↔ b < a.
Proof. simpl. destruct (Rlt_dec b a); split; intros; try congruence; lra. Qed.

Lemma resetViewport_width (a : R) :
  width (resetViewport a) = Rmax 3 (3 * a) * (105 / 100).
Proof. reflexivity. Qed.

Lemma resetViewport_height (a : R) :
  height (resetViewport a) = Rmax 3 (3 * a) * (105 / 100) / a.
Proof. reflexivity. Qed.

Lemma resetViewport_center (a : R) :
  centerRe (resetViewport a) = -1 / 2 ∧ centerIm (resetViewport a) = 0.
Proof. split; reflexivity. Qed.

Lemma home_width_lower (a : R) : 3 * (105 / 100) <= Rmax 3 (3 * a) * (105 / 100).
Proof. pose proof (Rmax_l 3 (3 * a)). lra. Qed.

Lemma home_width_covers (a : R) : 3 * a * (105 / 100) <= Rmax 3 (3 * a) * (105 / 100).
Proof. pose proof (Rmax_r 3 (3 * a)). lra. Qed.

Lemma home_height_lower (a : R) :
  0 < a → 3 * (105 / 100) <= Rmax 3 (3 * a) * (105 / 100) / a.
Proof.
  intros Ha. pose proof (home_width_covers a) as Hw.
  apply Rmult_le_reg_r with (r := a); [exact Ha |].
  replace (Rmax 3 (3 * a) * (105 / 100) / a * a)
    with (Rmax 3 (3 * a) * (105 / 100)) by (field; lra).
  lra.
Qed.

(** C5: for every positive aspect ratio [a] the home viewport has
    [width / height = a] (exactly, in real arithmetic) and its bounds
    satisfy [left <= -2], [right >= 1], [top >= 1.5] and [bottom <= -1.5]:
    the canonical box of the set is inside the home view whatever the
    orientation of the canvas. *)
Theorem resetViewport_frames_the_set (a : R) :
  0 < a →
  let v := resetViewport a in
  let b := getViewportBounds v in
  width v / height v = a ∧
  left b <= -2 ∧ 1 <= right b ∧ 15 / 10 <= top b ∧ bottom b <= - (15 / 10).
Proof.
  intros Ha v b.
  pose proof (home_width_lower a) as Hw.
  pose proof (home_height_lower a Ha) as Hh.
  subst b v. unfold getViewportBounds; cbn [left right top bottom].
  destruct (resetViewport_center a) as [-> ->].
  rewrite resetViewport_width, resetViewport_height.
  set (W := Rmax 3 (3 * a) * (105 / 100)) in *.
  cbn [sub add div fromZ R_JsNum].
  repeat split; try lra.
  field. split; lra.
Qed.

Lemma resetViewport_frames_the_set_portrait :
  let v := resetViewport (9 / 16) in
  let b := getViewportBounds v in
  width v / height v = 9 / 16 ∧
  left b <= -2 ∧ 1 <= right b ∧ 15 / 10 <= top b ∧ bottom b <= - (15 / 10).
Proof. apply (resetViewport_frames_the_set (9 / 16)). lra. Defined.

(** The two branches of [zoomToRect]. *)
Lemma zoomToRect_width_driven (v : Viewport R) (rect : Rect.t R) (canvas : CanvasSize.t R) :
  CanvasSize.width canvas / CanvasSize.height canvas < Rect.width rect / Rect.height rect →
  width (zoomToRect v rect canvas)
    = Rect.width rect / CanvasSize.width canvas * width v ∧
  height (zoomToRect v rect canvas)
    = width (zoomToRect v rect canvas)
      / (CanvasSize.width canvas / CanvasSize.height canvas).
Proof.
  intros Hwide. unfold zoomToRect.
  rewrite gt_R_true by exact Hwide. split; reflexivity.
Qed.

Lemma zoomToRect_height_driven (v : Viewport R) (rect : Rect.t R) (canvas : CanvasSize.t R) :
  Rect.width rect / Rect.height rect <= CanvasSize.width canvas / CanvasSize.height canvas →
  height (zoomToRect v rect canvas)
    = Rect.height rect / CanvasSize.height canvas * height v ∧
  width (zoomToRect v rect canvas)
    = height (zoomToRect v rect canvas)
      * (CanvasSize.width canvas / CanvasSize.height canvas).
Proof.
  intros Htall. unfold zoomToRect.
  rewrite gt_R_false by exact Htall. split; reflexivity.
Qed.

Lemma Rdiv_pos (a b : R) : 0 < a → 0 < b → 0 < a / b.
Proof. intros Ha Hb. apply Rdiv_lt_0_compat; assumption. Qed.

(** C7: for every viewport, every selection of positive width and height and
    every canvas of positive dimensions, the result of [zoomToRect] is locked
    to the aspect ratio of the canvas, whatever the aspect ratio of the
    selection: [width = height * (canvasWidth / canvasHeight)], that is
    [width / height = canvasWidth / canvasHeight] as soon as the viewport it
    starts from is a valid one.  The width of the selection drives the sizing
    when its aspect ratio exceeds that of the canvas, its height otherwise
    (ties included). *)
Theorem zoomToRect_aspect_lock (v : Viewport R) (rect : Rect.t R) (canvas : CanvasSize.t R) :
  positive_rect rect → positive_canvas canvas →
  let aspectRatio := CanvasSize.width canvas / CanvasSize.height canvas in
  let pixelAspect := Rect.width rect / Rect.height rect in
  let v' := zoomToRect v rect canvas in
  width v' = height v' * aspectRatio ∧
  (valid_viewport v → width v' / height v' = aspectRatio) ∧
  (aspectRatio < pixelAspect →
     width v' = Rect.width rect / CanvasSize.width canvas * width v ∧
     height v' = width v' / aspectRatio) ∧
  (pixelAspect <= aspectRatio →
     height v' = Rect.height rect / CanvasSize.height canvas * height v ∧
     width v' = height v' * aspectRatio).
Proof.
  intros [Hrw Hrh] [Hcw Hch] aspectRatio pixelAspect v'.
  assert (Ha : 0 < aspectRatio) by (apply Rdiv_pos; assumption).
  assert (Hlock : width v' = height v' * aspectRatio).
  { destruct (Rlt_dec aspectRatio pixelAspect) as [Hwide | Htall].
    - destruct (zoomToRect_width_driven v rect canvas Hwide) as [_ Hh].
      fold v' aspectRatio in Hh. rewrite Hh. field. lra.
    - apply Rnot_lt_le in Htall.
      exact (proj2 (zoomToRect_height_driven v rect canvas Htall)). }
  split; [exact Hlock | split; [| split]].
  - intros [Hvw Hvh].
    assert (Hpos : 0 < height v').
    { destruct (Rlt_dec aspectRatio pixelAspect) as [Hwide | Htall].
      - destruct (zoomToRect_width_driven v rect canvas Hwide) as [Hw Hh].
        fold v' aspectRatio in Hw, Hh. rewrite Hh, Hw.
        apply Rdiv_pos; [| exact Ha].
        apply Rmult_lt_0_compat; [apply Rdiv_pos |]; assumption.
      - apply Rnot_lt_le in Htall.
        destruct (zoomToRect_height_driven v rect canvas Htall) as [Hh _].
        fold v' in Hh. rewrite Hh.
        apply Rmult_lt_0_compat; [apply Rdiv_pos |]; assumption. }
    rewrite Hlock. field. lra.
  - intros Hwide. exact (zoomToRect_width_driven v rect canvas Hwide).
  - intros Htall. exact (zoomToRect_height_driven v rect canvas Htall).
Qed.

Lemma zoomToRect_aspect_lock_square_selection :
  let v := mkViewport (-1 / 2) 0 4 3 in
  let rect := Rect.mk 10 20 100 100 in
  let canvas := CanvasSize.mk 800 600 in
  valid_viewport v ∧ positive_rect rect ∧ positive_canvas canvas ∧
  width (zoomToRect v rect canvas) / height (zoomToRect v rect canvas) = 800 / 600.
Proof.
  intros v rect canvas.
  assert (Hv : valid_viewport v) by (unfold valid_viewport; simpl; lra).
  assert (Hr : positive_rect rect) by (unfold positive_rect; simpl; lra).
  assert (Hc : positive_canvas canvas) by (unfold positive_canvas; simpl; lra).
  repeat split; try (simpl; lra).
  exact (proj1 (proj2 (zoomToRect_aspect_lock v rect canvas Hr Hc)) Hv).
Defined.

(** C3: for a valid viewport and a canvas of positive size,
    [complexToPixel] undoes [pixelToComplex] at every pixel coordinate, inside
    the canvas or not, and [pixelToComplex] undoes [complexToPixel] at every
    plane point; in real arithmetic both compositions are exactly the
    identity. *)
Theorem pixel_complex_round_trip (v : Viewport R) (canvasWidth canvasHeight : R) :
  valid_viewport v → 0 < canvasWidth → 0 < canvasHeight →
  (∀ pixelX pixelY,
     let c := pixelToComplex v pixelX pixelY canvasWidth canvasHeight in
     complexToPixel v (re c) (im c) canvasWidth canvasHeight = mkPixel pixelX pixelY) ∧
  (∀ re0 im0,
     let p := complexToPixel v re0 im0 canvasWidth canvasHeight in
     pixelToComplex v (px p) (py p) canvasWidth canvasHeight = mkComplex re0 im0).
Proof.
  intros [Hw Hh] Hcw Hch. split.
  - intros pixelX pixelY c. subst c.
    unfold complexToPixel, pixelToComplex; cbn [re im].
    cbn [sub add mul div fromZ R_JsNum]. f_equal; field; lra.
  - intros re0 im0 p. subst p.
    unfold complexToPixel, pixelToComplex; cbn [px py].
    cbn [sub add mul div fromZ R_JsNum]. f_equal; field; lra.
Qed.

Lemma pixel_complex_round_trip_off_canvas :
  let v := mkViewport (-1 / 2) 0 4 3 in
  complexToPixel v (re (pixelToComplex v (-50) 900 800 600))
    (im (pixelToComplex v (-50) 900 800 600)) 800 600 = mkPixel (-50) 900.
Proof.
  intros v.
  assert (Hv : valid_viewport v) by (unfold valid_viewport; simpl; lra).
  exact (proj1 (pixel_complex_round_trip v 800 600 Hv ltac:(lra) ltac:(lra)) (-50) 900).
Defined.

Lemma home_16_9_exact :
  width (resetViewport (16 / 9)) = 56 / 10 ∧
  height (resetViewport (16 / 9)) = 315 / 100.
Proof.
  rewrite resetViewport_width, resetViewport_height.
  rewrite Rmax_right by lra. split; field.
Qed.
End ViewportLaws.

(** ** Viewport geometry in binary64 *)

Section Binary64.
Local Open Scope float_scope.
























(** The home view for a 16:9 canvas, as JavaScript computes it: the doubles
    nearest to 5.6 and 3.15. *)
Lemma home_16_9_binary64 :
  width home_16_9 = 56 / 10 ∧ height home_16_9 = 315 / 100.
Proof. vm_compute. split; reflexivity. Qed.
(** The round trip of C3 as JavaScript computes it, at the centre of the
    canvas (exact) and at a pixel outside the canvas (off by rounding only). *)
Example round_trip_binary64 :
  let centre := pixelToComplex home_16_9 400 225 800 450 in
  let outside := pixelToComplex home_16_9 (-37) 1013 800 450 in
  let back := complexToPixel home_16_9 (re outside) (im outside) 800 450 in
  complexToPixel home_16_9 (re centre) (im centre) 800 450 = mkPixel 400 225 ∧
  (abs (px back - (-37)) <? 1 / 1000000000) = true ∧
  (abs (py back - 1013) <? 1 / 1000000000) = true.
Proof. vm_compute. repeat split; reflexivity. Qed.

(** The integer kernel on the points the repository's tests use. *)
Example escapeIterations_binary64 :
  escapeIterations (T:=float) 0 0 100 = 100%nat ∧
  escapeIterations (T:=float) (-1) 0 100 = 100%nat ∧
  escapeIterations (T:=float) 1 0 100 = 3%nat ∧
  escapeIterations (T:=float) 2 2 100 = 1%nat.
Proof. vm_compute. repeat split; reflexivity. Qed.
End Binary64.

Section HomeView.
Local Open Scope R_scope.

(** C8 as stated fails: the home view for 16:9 is more than 0.1 away from
    both 5.89 (width) and 3.31 (height). *)
Lemma home_16_9_is_not_5_89 :
  ¬ close_to (1 / 10) (width (resetViewport (16 / 9))) (589 / 100) ∧
  ¬ close_to (1 / 10) (height (resetViewport (16 / 9))) (331 / 100).
Proof.
  destruct home_16_9_exact as [-> ->]. unfold close_to.
  split; intros Hclose; unfold Rabs in Hclose;
    destruct (Rcase_abs _) in Hclose; lra.
Qed.

(** C8, amended: the home viewport for aspect ratio 16/9 has width 5.6
    (that is [3.0 * (16/9) * 1.05]) and height 3.15, exactly in real
    arithmetic and to the nearest double in binary64. *)
Theorem home_16_9_spans :
  (width (resetViewport (16 / 9)) = 56 / 10 ∧
   height (resetViewport (16 / 9)) = 315 / 100) ∧
  (width home_16_9 = 56 / 10 ∧ height home_16_9 = 315 / 100)%float.
Proof. split; [exact home_16_9_exact | exact home_16_9_binary64]. Qed.
End HomeView.

(** ** The escape-time kernel *)

Section KernelLoop.
Context {T : Type} `{JsNum T} `{JsMath T}.

(** Both loops walk along the orbit: at the top of pass [i] the variables
    [zRe], [zIm] hold [z_i]. *)
Lemma orbit_S (cRe cIm : T) (k : nat) (zRe zIm : T) :
  orbit cRe cIm k = (zRe, zIm) →
  orbit cRe cIm (S k) = next_z cRe cIm zRe zIm.
Proof. intros Hk. cbn [orbit]. rewrite Hk. reflexivity. Qed.

Lemma escaped_at (cRe cIm : T) (k : nat) (zRe zIm : T) :
  orbit cRe cIm k = (zRe, zIm) →
  escaped cRe cIm k = gt (magnitudeSq zRe zIm) bailoutSq.
Proof. intros Hk. unfold escaped. rewrite Hk. reflexivity. Qed.

Lemma loops_interior (cRe cIm : T) (maxIterations fuel : nat) :
  ∀ (i : nat) (zRe zIm : T),
    orbit cRe cIm i = (zRe, zIm) →
    (∀ k, i ≤ k < i + fuel → escaped cRe cIm k = false) →
    escapeLoop cRe cIm maxIterations fuel zRe zIm i = maxIterations ∧
    smoothLoop cRe cIm maxIterations fuel zRe zIm i = fromNat maxIterations.
Proof.
  induction fuel as [| fuel IH]; intros i zRe zIm Horbit Hinside.
  - split; reflexivity.
  - cbn [escapeLoop smoothLoop].
    rewrite <- (escaped_at _ _ _ _ _ Horbit), (Hinside i) by lia.
    pose proof (orbit_S _ _ _ _ _ Horbit) as Hnext.
    destruct (next_z cRe cIm zRe zIm) as [zRe' zIm'].
    apply IH; [exact Hnext |]. intros k Hk. apply Hinside. lia.
Qed.

Lemma loops_escape (cRe cIm : T) (maxIterations fuel : nat) :
  ∀ (i j : nat) (zRe zIm : T),
    orbit cRe cIm i = (zRe, zIm) →
    i ≤ j < i + fuel →
    (∀ k, i ≤ k < j → escaped cRe cIm k = false) →
    escaped cRe cIm j = true →
    escapeLoop cRe cIm maxIterations fuel zRe zIm i = j ∧
    smoothLoop cRe cIm maxIterations fuel zRe zIm i
      = smoothValue (fst (orbit cRe cIm j)) (snd (orbit cRe cIm j)) j maxIterations.
Proof.
  induction fuel as [| fuel IH]; intros i j zRe zIm Horbit Hj Hbefore Hesc.
  - lia.
  - cbn [escapeLoop smoothLoop].
    rewrite <- (escaped_at _ _ _ _ _ Horbit).
    destruct (decide (i = j)) as [-> | Hne].
    + rewrite Hesc, Horbit. split; reflexivity.
    + rewrite (Hbefore i) by lia.
      pose proof (orbit_S _ _ _ _ _ Horbit) as Hnext.
      destruct (next_z cRe cIm zRe zIm) as [zRe' zIm'].
      apply IH; [exact Hnext | lia | | exact Hesc].
      intros k Hk. apply Hbefore. lia.
Qed.

Lemma kernels_escape (cRe cIm : T) (maxIterations i : nat) :
  i < maxIterations →
  escaped cRe cIm i = true →
  (∀ k, k < i → escaped cRe cIm k = false) →
  escapeIterations cRe cIm maxIterations = i ∧
  smoothEscape cRe cIm maxIterations
    = smoothValue (fst (orbit cRe cIm i)) (snd (orbit cRe cIm i)) i maxIterations.
Proof.
  intros Hi Hesc Hbefore.
  apply loops_escape; [reflexivity | lia | | exact Hesc].
  intros k Hk. apply Hbefore. lia.
Qed.

(** C9: when the orbit of a point does not pass the bailout test at any
    iteration below the budget, [escapeIterations] and [smoothEscape] both
    return the budget itself; and with a budget of [0] both return [0] at
    once, for every point.  This holds for whatever arithmetic the kernel is
    run with. *)
Theorem interior_returns_budget (cRe cIm : T) (maxIterations : nat) :
  ((∀ k, k < maxIterations → escaped cRe cIm k = false) →
   escapeIterations cRe cIm maxIterations = maxIterations ∧
   smoothEscape cRe cIm maxIterations = fromNat maxIterations) ∧
  (escapeIterations cRe cIm 0 = 0 ∧ smoothEscape cRe cIm 0 = fromZ 0).
Proof.
  split.
  - intros Hinside. apply loops_interior; [reflexivity |].
    intros k Hk. apply Hinside. lia.
  - split; reflexivity.
Qed.
End KernelLoop.

Section KernelReals.
Local Open Scope R_scope.
Local Abbreviation sqrt := R_sqrt.sqrt.

Lemma fromNat_INR (n : nat) : fromNat n = INR n.
Proof. unfold fromNat. cbn [fromZ R_JsNum]. symmetry. apply INR_IZR_INZ. Qed.

Lemma orbit_origin (k : nat) : orbit (T:=R) 0 0 k = (0, 0).
Proof.
  induction k as [| k IH]; [reflexivity |].
  cbn [orbit]. rewrite IH. unfold next_z. cbn [add sub mul fromZ R_JsNum].
  f_equal; ring.
Qed.

Lemma escaped_origin (k : nat) : escaped (T:=R) 0 0 k = false.
Proof.
  unfold escaped. rewrite orbit_origin. apply gt_R_false.
  unfold magnitudeSq, bailoutSq, bailout. cbn [add mul fromZ R_JsNum]. lra.
Qed.

Lemma interior_returns_budget_origin :
  escapeIterations (T:=R) 0 0 100 = 100%nat ∧ smoothEscape (T:=R) 0 0 100 = fromNat 100.
Proof.
  apply (proj1 (interior_returns_budget (T:=R) 0 0 100)).
  intros k _. apply escaped_origin.
Defined.

Lemma ln_2_pos : 0 < ln 2.
Proof. rewrite <- ln_1. apply ln_increasing; lra. Qed.

Lemma ln_4 : ln 4 = 2 * ln 2.
Proof. replace 4 with (2 * 2) by lra. rewrite ln_mult by lra. lra. Qed.

Lemma sqrt_above_2 (m : R) : 4 < m → 2 < sqrt m.
Proof.
  intros Hm. replace 2 with (sqrt 4).
  - apply sqrt_lt_1; lra.
  - replace 4 with (2 * 2) by lra. apply sqrt_square. lra.
Qed.

(** Past the bailout test the correction term [ln 4 / ln |z|] lies strictly
    between [0] and [2]. *)
Lemma correction_bounds (m : R) : 4 < m → 0 < ln 4 / ln (sqrt m) < 2.
Proof.
  intros Hm. pose proof (sqrt_above_2 m Hm) as Hs.
  assert (Hl : ln 2 < ln (sqrt m)) by (apply ln_increasing; lra).
  pose proof ln_2_pos as H2. rewrite ln_4. split.
  - apply Rdiv_lt_0_compat; lra.
  - apply Rmult_lt_reg_r with (r := ln (sqrt m)); [lra |].
    replace (2 * ln 2 / ln (sqrt m) * ln (sqrt m)) with (2 * ln 2) by (field; lra).
    lra.
Qed.

(** What [smoothEscape] computes as it is written, over the reals: when the
    bailout test first succeeds at iteration [i < maxIterations],
    [escapeIterations] returns [i] and [smoothEscape] returns
    [i + 1 - ln 4 / ln |z_i|], clamped to [maxIterations]: the numerator is
    the logarithm of the squared bailout radius, [4].  The clamp never takes
    effect, and the value lies strictly between [i - 1] and [i + 1].  This is
    not the count the documentation and the fragment shader give,
    [i + 1 - log2 (log2 |z_i|)]. *)
Theorem smoothEscape_formula (cRe cIm : R) (maxIterations i : nat) :
  (i < maxIterations)%nat →
  escaped cRe cIm i = true →
  (∀ k, (k < i)%nat → escaped cRe cIm k = false) →
  let magnitude :=
    sqrt (magnitudeSq (fst (orbit cRe cIm i)) (snd (orbit cRe cIm i))) in
  let smooth := INR i + 1 - ln 4 / ln magnitude in
  escapeIterations cRe cIm maxIterations = i ∧
  smoothEscape cRe cIm maxIterations = Rmin smooth (INR maxIterations) ∧
  smoothEscape cRe cIm maxIterations = smooth ∧
  INR i - 1 < smoothEscape cRe cIm maxIterations < INR i + 1.
Proof.
  intros Hi Hesc Hbefore magnitude smooth.
  destruct (kernels_escape cRe cIm maxIterations i Hi Hesc Hbefore) as [Hcount Hsmooth].
  assert (Hval : smoothEscape cRe cIm maxIterations = Rmin smooth (INR maxIterations)).
  { rewrite Hsmooth. unfold smoothValue. rewrite !fromNat_INR. reflexivity. }
  assert (Hm : 4 < magnitudeSq (fst (orbit cRe cIm i)) (snd (orbit cRe cIm i))).
  { unfold escaped in Hesc. destruct (orbit cRe cIm i) as [zRe zIm].
    apply gt_R_spec in Hesc. exact Hesc. }
  pose proof (correction_bounds _ Hm) as [Hlo Hhi]. fold magnitude in Hlo, Hhi.
  assert (Hle : INR i + 1 <= INR maxIterations).
  { rewrite <- S_INR. apply le_INR. lia. }
  assert (Hmin : Rmin smooth (INR maxIterations) = smooth).
  { apply Rmin_left. unfold smooth. lra. }
  rewrite Hval, Hmin. unfold smooth. repeat split; try assumption; lra.
Qed.

Lemma orbit_9_4_one : orbit (T:=R) (9 / 4) 0 1 = (9 / 4, 0).
Proof.
  cbn [orbit]. unfold next_z. cbn [add sub mul fromZ R_JsNum]. f_equal; lra.
Qed.

Lemma escaped_9_4_zero : escaped (T:=R) (9 / 4) 0 0 = false.
Proof.
  unfold escaped. cbn [orbit]. apply gt_R_false.
  unfold magnitudeSq, bailoutSq, bailout. cbn [add mul fromZ R_JsNum]. lra.
Qed.

Lemma escaped_9_4_one : escaped (T:=R) (9 / 4) 0 1 = true.
Proof.
  unfold escaped. rewrite orbit_9_4_one. apply gt_R_true.
  unfold magnitudeSq, bailoutSq, bailout. cbn [add mul fromZ R_JsNum]. lra.
Qed.

Lemma sqrt_9_4 : sqrt (magnitudeSq (9 / 4) 0) = 9 / 4.
Proof.
  unfold magnitudeSq. cbn [add mul R_JsNum].
  replace (9 / 4 * (9 / 4) + 0 * 0) with (9 / 4 * (9 / 4)) by ring.
  apply sqrt_square. lra.
Qed.

Lemma smoothEscape_9_4_value :
  escapeIterations (T:=R) (9 / 4) 0 10 = 1%nat ∧
  smoothEscape (T:=R) (9 / 4) 0 10 = Rmin (1 + 1 - ln 4 / ln (9 / 4)) 10.
Proof.
  destruct (kernels_escape (T:=R) (9 / 4) 0 10 1) as [Hcount Hsmooth].
  - lia.
  - exact escaped_9_4_one.
  - intros k Hk. replace k with 0%nat by lia. exact escaped_9_4_zero.
  - split; [exact Hcount |].
    rewrite Hsmooth, orbit_9_4_one. cbn [fst snd]. unfold smoothValue.
    cbn [Math_sqrt Math_log Math_min R_JsMath R_JsNum]. rewrite sqrt_9_4.
    unfold logBailout, bailout, fromNat.
    cbn [Math_log add sub div fromZ R_JsMath R_JsNum Z.of_nat Pos.of_succ_nat Pos.succ].
    reflexivity.
Qed.

(** The correction term at [|z| = 9/4] exceeds [3/2], since [(9/4)^3 < 4^2]. *)
Lemma correction_9_4 : 3 / 2 < ln 4 / ln (9 / 4).
Proof.
  assert (Hpos : 0 < ln (9 / 4)).
  { rewrite <- ln_1. apply ln_increasing; lra. }
  assert (Hcmp : ln (9 / 4 * (9 / 4) * (9 / 4)) < ln (4 * 4)).
  { apply ln_increasing; lra. }
  rewrite !ln_mult in Hcmp by lra.
  apply Rmult_lt_reg_r with (r := ln (9 / 4)); [exact Hpos |].
  replace (ln 4 / ln (9 / 4) * ln (9 / 4)) with (ln 4) by (field; lra).
  lra.
Qed.

(** The same term with the bailout radius [2] in the numerator is below [1]. *)
Lemma radius_correction_9_4 : ln 2 / ln (9 / 4) < 1.
Proof.
  assert (Hlt : ln 2 < ln (9 / 4)) by (apply ln_increasing; lra).
  pose proof ln_2_pos as H2.
  apply Rmult_lt_reg_r with (r := ln (9 / 4)); [lra |].
  replace (ln 2 / ln (9 / 4) * ln (9 / 4)) with (ln 2) by (field; lra).
  lra.
Qed.

(** At [|z| = 9/4] the correction of the shader, [log2 (log2 |z|)], lies
    strictly between [0] and [1], since [2 < 9/4 < 4]. *)
Lemma smoothIter_9_4 : 1 < smoothIter (T:=R) (9 / 4) 0 1 < 2.
Proof.
  unfold smoothIter, glsl_log2. rewrite fromNat_INR.
  cbn [Math_sqrt Math_max Math_log add sub mul div fromZ R_JsMath R_JsNum INR].
  replace (sqrt (9 / 4 * (9 / 4) + 0 * 0)) with (9 / 4)
    by (symmetry; exact sqrt_9_4).
  rewrite Rmax_left by lra.
  pose proof ln_2_pos as H2.
  assert (Hlo : ln 2 < ln (9 / 4)) by (apply ln_increasing; lra).
  assert (Hhi : ln (9 / 4) < 2 * ln 2).
  { rewrite <- ln_4. apply ln_increasing; lra. }
  set (L := ln (9 / 4) / ln 2).
  assert (HL : 1 < L < 2).
  { unfold L. split.
    - apply Rmult_lt_reg_r with (r := ln 2); [exact H2 |].
      replace (ln (9 / 4) / ln 2 * ln 2) with (ln (9 / 4)) by (field; lra). lra.
    - apply Rmult_lt_reg_r with (r := ln 2); [exact H2 |].
      replace (ln (9 / 4) / ln 2 * ln 2) with (ln (9 / 4)) by (field; lra). lra. }
  assert (Hnu : 0 < ln L / ln 2 < 1).
  { assert (HlL : 0 < ln L) by (rewrite <- ln_1; apply ln_increasing; lra).
    assert (HlL2 : ln L < ln 2) by (apply ln_increasing; lra).
    split.
    - apply Rdiv_lt_0_compat; assumption.
    - apply Rmult_lt_reg_r with (r := ln 2); [exact H2 |].
      replace (ln L / ln 2 * ln 2) with (ln L) by (field; lra). lra. }
  lra.
Qed.

(** C2: the code misses the claim at [c = 9/4] with budget [10].  The orbit
    escapes at iteration [1] with [|z_1| = 9/4].  The formula of the claim,
    [i + 1 - ln 2 / ln |z_i|], gives a value in the interval [[1, 2)] the
    claim states, and so does the count of the fragment shader,
    [i + 1 - log2 (log2 |z_i|)], the form the documentation gives as
    intended.  [smoothEscape] returns a value below [1/2]: it is not the
    value of the claim's formula and lies more than half a unit under the
    interval. *)
Lemma smoothEscape_is_not_radius_formula :
  let i := escapeIterations (T:=R) (9 / 4) 0 10 in
  let magnitude := sqrt (magnitudeSq (fst (orbit (9 / 4) 0 1)) (snd (orbit (9 / 4) 0 1))) in
  i = 1%nat ∧
  escaped (T:=R) (9 / 4) 0 1 = true ∧
  1 < INR i + 1 - ln 2 / ln magnitude ∧
  INR i + 1 - ln 2 / ln magnitude < 2 ∧
  1 < smoothIter (fst (orbit (9 / 4) 0 1)) (snd (orbit (9 / 4) 0 1)) i < 2 ∧
  smoothEscape (T:=R) (9 / 4) 0 10 < 1 / 2 ∧
  smoothEscape (T:=R) (9 / 4) 0 10 ≠ INR i + 1 - ln 2 / ln magnitude ∧
  ¬ (INR i - 1 / 2 <= smoothEscape (T:=R) (9 / 4) 0 10).
Proof.
  intros i magnitude. subst i magnitude.
  destruct smoothEscape_9_4_value as [-> ->].
  rewrite orbit_9_4_one. cbn [fst snd INR]. rewrite sqrt_9_4.
  pose proof correction_9_4 as Hc. pose proof radius_correction_9_4 as Hr.
  pose proof smoothIter_9_4 as [Hs1 Hs2].
  assert (Hpos : 0 < ln 2 / ln (9 / 4)).
  { apply Rdiv_lt_0_compat; [exact ln_2_pos |].
    rewrite <- ln_1. apply ln_increasing; lra. }
  assert (Hmin : Rmin (1 + 1 - ln 4 / ln (9 / 4)) 10 = 1 + 1 - ln 4 / ln (9 / 4)).
  { apply Rmin_left. lra. }
  rewrite Hmin.
  repeat split; try lra. exact escaped_9_4_one.
Qed.

Lemma smoothEscape_formula_9_4 :
  escapeIterations (T:=R) (9 / 4) 0 10 = 1%nat ∧
  INR 1 - 1 < smoothEscape (T:=R) (9 / 4) 0 10 < INR 1 + 1.
Proof.
  destruct (smoothEscape_formula (9 / 4) 0 10 1) as (Hcount & _ & _ & Hbounds).
  - lia.
  - exact escaped_9_4_one.
  - intros k Hk. replace k with 0%nat by lia. exact escaped_9_4_zero.
  - split; [exact Hcount | exact Hbounds].
Defined.
End KernelReals.

(** ** The render scheduler *)

(** Every handle the browser issues is at least [1], so [if (handle)] is a
    test for [null]. *)
Lemma truthy_Some (id : nat) : 1 ≤ id → truthy (Some id) = Some id.
Proof. destruct id; [lia | reflexivity]. Qed.

Ltac run_method :=
  unfold step, exec, handle, animateZoom, startHoldZoom, stopHoldZoom,
    startInteraction, endInteraction, scheduleRender, render, destroy, cancel,
    fireFrame, fireTimer, runFrame, runTimer, animStep, holdStep,
    performRender, ifHandle, callOnComplete, skip, getThis,
    set_renderRequestId, set_debounceTimeoutId, set_animationFrameId,
    set_holdZoomFrameId, set_holdLastViewport, set_lastViewport,
    set_lastSettings, modifyThis, requestAnimationFrame,
    cancelAnimationFrame, setTimeout, clearTimeout, emit,
    mbind, St_bind, mret, St_ret;
  repeat (progress (cbn -[truthy]; change (truthy None) with (@None nat);
                    rewrite ?truthy_Some by lia)).

Ltac map_facts :=
  repeat match goal with
  | Hl : <[_:=_]> _ !! _ = Some _ |- _ =>
      apply lookup_insert_Some in Hl; destruct Hl as [[? ?] | [? Hl]]
  | Hl : delete _ _ !! _ = Some _ |- _ =>
      apply lookup_delete_Some in Hl; destruct Hl as [? Hl]
  | Hl : ∅ !! _ = Some _ |- _ => rewrite lookup_empty in Hl; discriminate
  end.

Ltac open_world w Hc :=
  destruct Hc as [Hfp Htp Hfi Hti Hfd Hfn Htn Hol];
  destruct w as [[[rr|] [db|] [an|] [hz|] hl lv ls] fr tm nf nt out];
  cbn in Hfp, Htp, Hfi, Hti, Hfd, Hfn, Htn, Hol;
  try (destruct Hol; discriminate);
  try pose proof (Hfi ZoomAnimation _ eq_refl);
  try pose proof (Hfi HoldZoomLoop _ eq_refl);
  try pose proof (Hfi ScheduledRender _ eq_refl);
  try pose proof (Hti _ eq_refl);
  try (assert (an ≠ rr)
         by (intros ->; discriminate (Hfd ZoomAnimation ScheduledRender _ eq_refl eq_refl)));
  try (assert (hz ≠ rr)
         by (intros ->; discriminate (Hfd HoldZoomLoop ScheduledRender _ eq_refl eq_refl)));
  clear Hfi Hti Hfd Hol; cbn in *.

Ltac named Hfn Htn :=
  repeat match goal with
  | Hl : _ !! _ = Some ?cb |- _ =>
      first [ apply Hfn in Hl; destruct cb | apply Htn in Hl ]; cbn in Hl
  end.

Ltac close_world Hfn Htn :=
  let k := fresh "k" in let k' := fresh "k'" in let h := fresh "h" in
  let cb := fresh "cb" in let Hk := fresh "Hk" in let Hk' := fresh "Hk'" in
  let Hl := fresh "Hl" in
  split; cbn;
  [ lia | lia
  | intros [] h Hk; cbn in *; simplify_eq; lia
  | intros h Hk; simplify_eq; lia
  | intros [] [] h Hk Hk'; cbn in *; simplify_eq; first [done | lia | naive_solver]
  | intros h cb Hl; map_facts; cbn; try done; named Hfn Htn; simplify_eq;
    first [done | lia | naive_solver]
  | intros h cb Hl; map_facts; cbn; try done; named Hfn Htn; simplify_eq;
    first [done | lia | naive_solver]
  | first [left; done | right; done] ].

Ltac run_raw :=
  unfold step, exec, handle, animateZoom, startHoldZoom, stopHoldZoom,
    startInteraction, endInteraction, scheduleRender, render, destroy, cancel,
    fireFrame, fireTimer, runFrame, runTimer, animStep, holdStep,
    performRender, ifHandle, callOnComplete, skip, getThis,
    set_renderRequestId, set_debounceTimeoutId, set_animationFrameId,
    set_holdZoomFrameId, set_holdLastViewport, set_lastViewport,
    set_lastSettings, modifyThis, requestAnimationFrame,
    cancelAnimationFrame, setTimeout, clearTimeout, emit,
    mbind, St_bind, mret, St_ret, truthy;
  cbn.

Ltac open_raw w :=
  destruct w as [[[[|rr]|] [[|db]|] [[|an]|] [[|hz]|] hl lv ls] fr tm nf nt out];
  cbn in *.

Section SchedulerLaws.
Context {T : Type} `{JsNum T} `{JsMath T}.

Lemma initial_consistent : consistent (initial (T:=T)).
Proof.
  split; cbn; try done.
  - intros []; done.
  - intros [] []; done.
  - left; done.
Qed.

Lemma render_consistent (w : World T) viewport settings debounce :
  consistent w → consistent (exec (render viewport settings debounce) w).
Proof.
  intros Hc. open_world w Hc; run_method.
  all: destruct debounce; cbn; close_world Hfn Htn.
Qed.

Lemma startInteraction_consistent (w : World T) :
  consistent w → consistent (exec startInteraction w).
Proof. intros Hc. open_world w Hc; run_method; close_world Hfn Htn. Qed.

Lemma endInteraction_consistent (w : World T) :
  consistent w → consistent (exec endInteraction w).
Proof. intros Hc. open_world w Hc; run_method; close_world Hfn Htn. Qed.

Lemma stopHoldZoom_consistent (w : World T) settings onComplete :
  consistent w → consistent (exec (stopHoldZoom settings onComplete) w).
Proof.
  intros Hc. open_world w Hc; run_method.
  all: destruct hl, onComplete; cbn; close_world Hfn Htn.
Qed.

Lemma cancel_consistent (w : World T) :
  consistent w → consistent (exec cancel w).
Proof. intros Hc. open_world w Hc; run_method; close_world Hfn Htn. Qed.

Lemma destroy_consistent (w : World T) :
  consistent w → consistent (exec destroy w).
Proof. intros Hc. open_world w Hc; run_method; close_world Hfn Htn. Qed.

Lemma animateZoom_consistent (w : World T) viewport settings target aspectRatio
    onComplete now :
  consistent w →
  consistent (exec (animateZoom viewport settings target aspectRatio onComplete now) w).
Proof. intros Hc. open_world w Hc; run_method; close_world Hfn Htn. Qed.

Lemma startHoldZoom_consistent (w : World T) viewport settings target aspectRatio now :
  consistent w →
  consistent (exec (startHoldZoom viewport settings target aspectRatio now) w).
Proof. intros Hc. open_world w Hc; run_method; close_world Hfn Htn. Qed.

Lemma fireTimer_consistent (w : World T) id :
  consistent w → consistent (exec (fireTimer id) w).
Proof.
  intros Hc. open_world w Hc; run_method.
  all: destruct (tm !! id) as [[]|] eqn:Hid; run_method.
  all: try destruct lv; try destruct ls; cbn; close_world Hfn Htn.
Qed.

Lemma fireFrame_consistent (w : World T) id now :
  consistent w → consistent (exec (fireFrame id now) w).
Proof.
  intros Hc. open_world w Hc; run_method.
  all: destruct (fr !! id) as [cb|] eqn:Hid; [| close_world Hfn Htn].
  all: pose proof (Hfn _ _ Hid) as Hcb; destruct cb; cbn in Hcb; simplify_eq; run_method.
  all: repeat case_match; simplify_eq; run_method; close_world Hfn Htn.
Qed.

Lemma step_consistent (w : World T) e : consistent w → consistent (step w e).
Proof.
  intros Hc. destruct e; unfold step, handle.
  - by apply animateZoom_consistent.
  - by apply startHoldZoom_consistent.
  - by apply stopHoldZoom_consistent.
  - by apply startInteraction_consistent.
  - by apply endInteraction_consistent.
  - by apply render_consistent.
  - by apply cancel_consistent.
  - by apply destroy_consistent.
  - by apply fireFrame_consistent.
  - by apply fireTimer_consistent.
Qed.

Lemma run_consistent events (w : World T) : consistent w → consistent (run events w).
Proof.
  revert w. induction events as [| e events IH]; intros w Hc; [exact Hc |].
  cbn. apply IH, step_consistent, Hc.
Qed.

Lemma reachable_consistent (history : list (Event T)) :
  consistent (run history initial).
Proof. apply run_consistent, initial_consistent. Qed.

(** ** What the phase-entering methods leave pending *)

(** The table holds the freshly armed callback and nothing else. *)
Ltac only_armed nf Hfn Htn :=
  let i := fresh "i" in let cb := fresh "cb" in let Hl := fresh "Hl" in
  apply map_eq; intros i;
  destruct (decide (i = nf)) as [-> | ?];
  [ first [ by rewrite !lookup_insert_eq | idtac ] | ];
  rewrite ?lookup_insert_ne by done; rewrite lookup_empty;
  apply eq_None_not_Some; intros [cb Hl];
  map_facts; named Hfn Htn; simplify_eq; first [done | lia].

Lemma animateZoom_arms (w : World T) viewport settings target aspectRatio onComplete now :
  consistent w →
  let w' := exec (animateZoom viewport settings target aspectRatio onComplete now) w in
  frames w' = {[ nextFrame w :=
                   AnimStep viewport settings target aspectRatio now onComplete ]} ∧
  timers w' = ∅ ∧
  animationFrameId (this w') = Some (nextFrame w) ∧
  holdZoomFrameId (this w') = None ∧
  holdLastViewport (this w') = None ∧
  output w' = output w ++ [updatePalette (palette settings)].
Proof.
  intros Hc w'. subst w'. open_world w Hc; run_method.
  all: repeat split; try reflexivity; only_armed nf Hfn Htn.
Qed.

Lemma startHoldZoom_arms (w : World T) viewport settings target aspectRatio now :
  consistent w →
  let w' := exec (startHoldZoom viewport settings target aspectRatio now) w in
  frames w' = {[ nextFrame w := HoldStep viewport settings target aspectRatio now ]} ∧
  timers w' = ∅ ∧
  holdZoomFrameId (this w') = Some (nextFrame w) ∧
  animationFrameId (this w') = None ∧
  output w' = output w ++ [updatePalette (palette settings)].
Proof.
  intros Hc w'. subst w'. open_world w Hc; run_method.
  all: repeat split; try reflexivity; only_armed nf Hfn Htn.
Qed.

(** [render] and [endInteraction] replace the pending source of their own
    kind and touch nothing else. *)
Lemma render_debounced_replaces (w : World T) viewport settings :
  consistent w →
  let w' := exec (render viewport settings true) w in
  frames w' = frames w ∧ timers w' = {[ nextTimer w := Debounce ]}.
Proof.
  intros Hc w'. subst w'. open_world w Hc; run_method.
  all: split; [reflexivity | only_armed nt Hfn Htn].
Qed.

Ltac others_kept nf Hfn Htn :=
  let i := fresh "i" in let cb := fresh "cb" in
  let Hkind := fresh "Hkind" in let Hl := fresh "Hl" in
  split; [reflexivity |]; split; [| by rewrite lookup_insert_eq];
  intros i cb Hkind; split; intros Hl;
  [ map_facts; [by subst cb | done]
  | pose proof (Hfn _ _ Hl) as Hh; destruct cb; cbn in Hh; simplify_eq;
    try done;
    rewrite lookup_insert_ne, ?lookup_delete_ne by (first [done | lia]); done ].

Lemma render_immediate_replaces (w : World T) viewport settings :
  consistent w →
  let w' := exec (render viewport settings false) w in
  timers w' = timers w ∧
  (∀ id cb, frameKind cb ≠ ScheduledRender →
            frames w' !! id = Some cb ↔ frames w !! id = Some cb) ∧
  frames w' !! nextFrame w = Some RenderFrame.
Proof.
  intros Hc w'. subst w'. open_world w Hc; run_method.
  all: others_kept nf Hfn Htn.
Qed.

Lemma endInteraction_replaces (w : World T) :
  consistent w →
  let w' := exec endInteraction w in
  timers w' = timers w ∧
  (∀ id cb, frameKind cb ≠ ScheduledRender →
            frames w' !! id = Some cb ↔ frames w !! id = Some cb) ∧
  frames w' !! nextFrame w = Some RenderFrame.
Proof.
  intros Hc w'. subst w'. open_world w Hc; run_method.
  all: others_kept nf Hfn Htn.
Qed.

(** ** The hold-zoom loop once it has been cancelled *)

Ltac still_idle Hfr :=
  let i := fresh "i" in let cb := fresh "cb" in let Hl := fresh "Hl" in
  split; cbn; [first [reflexivity | assumption] |];
  intros i cb Hl; map_facts; subst; first [by cbn | by eapply Hfr; eassumption].

Lemma hold_idle_step (w : World T) e :
  hold_idle w → is_startHoldZoom e = false →
  hold_idle (step w e) ∧ runs_hold_step w e = false.
Proof.
  intros [Hhl Hfr] He. destruct e; try discriminate; cbn [runs_hold_step].
  - split; [| reflexivity]. open_raw w; run_raw; still_idle Hfr.
  - split; [| reflexivity]. open_raw w; subst hl; run_raw; still_idle Hfr.
  - split; [| reflexivity]. open_raw w; run_raw; still_idle Hfr.
  - split; [| reflexivity]. open_raw w; run_raw; still_idle Hfr.
  - split; [| reflexivity]. open_raw w; destruct debounce; run_raw; still_idle Hfr.
  - split; [| reflexivity]. open_raw w; run_raw; still_idle Hfr.
  - split; [| reflexivity]. open_raw w; run_raw; still_idle Hfr.
  - destruct w as [[rr db an hz hl lv ls] fr tm nf nt out]; cbn in *. run_raw.
    destruct (fr !! id) as [cb |] eqn:Hid; [| split; [split; assumption | reflexivity]].
    pose proof (Hfr _ _ Hid) as Hkind.
    destruct cb; try (by destruct Hkind); (split; [| reflexivity]); run_raw.
    + destruct (lt _ _); [| destruct onComplete]; run_raw; still_idle Hfr.
    + destruct lv, ls; run_raw; still_idle Hfr.
  - split; [| reflexivity].
    destruct w as [[rr db an hz hl lv ls] fr tm nf nt out]; cbn in *. run_raw.
    destruct (tm !! id) as [[] |]; [| split; assumption]. run_raw.
    destruct lv, ls; run_raw; still_idle Hfr.
Qed.

Lemma hold_idle_run (events : list (Event T)) :
  ∀ w, hold_idle w → forallb (λ e, negb (is_startHoldZoom e)) events = true →
       hold_idle (run events w) ∧ hold_runs events w = 0.
Proof.
  induction events as [| e events IH]; intros w Hidle Hev; [split; [exact Hidle | reflexivity] |].
  cbn in Hev. apply andb_true_iff in Hev as [He Hev]. apply negb_true_iff in He.
  destruct (hold_idle_step w e Hidle He) as [Hidle' Hrun].
  destruct (IH _ Hidle' Hev) as [Hfinal Hquiet].
  split; [exact Hfinal |]. cbn [hold_runs]. rewrite Hrun, Hquiet. reflexivity.
Qed.

Lemma stopHoldZoom_no_viewport (w : World T) settings onComplete :
  holdLastViewport (this w) = None →
  let w' := exec (stopHoldZoom settings onComplete) w in
  output w' = output w ∧
  lastViewport (this w') = lastViewport (this w) ∧
  lastSettings (this w') = lastSettings (this w).
Proof.
  intros Hhl w'. subst w'. destruct w as [[rr db an hz hl lv ls] fr tm nf nt out].
  cbn in Hhl. subst hl. destruct hz as [[| hz] |]; repeat split.
Qed.

Lemma stopHoldZoom_keeps_animation (w : World T) settings onComplete id cb :
  holdZoomFrameId (this w) = None →
  frames w !! id = Some cb →
  frames (exec (stopHoldZoom settings onComplete) w) !! id = Some cb.
Proof.
  intros Hhz Hl. destruct w as [[rr db an hz hl lv ls] fr tm nf nt out].
  cbn in Hhz, Hl. subst hz. run_raw. destruct hl, onComplete; exact Hl.
Qed.

Lemma animation_frame_renders (w : World T) id start settings target aspectRatio
    startTime onComplete now :
  frames w !! id = Some (AnimStep start settings target aspectRatio startTime onComplete) →
  let t := Math_min (fromZ 1) (div (sub now startTime) (fromZ 450)) in
  ∃ rest,
    output (step w (EFrame id now))
      = output w
        ++ rendererRender (animViewport start settings target aspectRatio (easeInOutQuad t))
             (animSettingsOf settings) :: rest.
Proof.
  intros Hl t. destruct w as [[rr db an hz hl lv ls] fr tm nf nt out].
  cbn in Hl. run_raw. rewrite Hl. run_raw. fold t.
  destruct (lt t (fromZ 1)); [| destruct onComplete]; run_raw;
    rewrite <- ?app_assoc; eexists; reflexivity.
Qed.

(** ** Counting what is pending *)

Lemma size_named_le {A} (m : gmap nat A) (X : gset nat) :
  (∀ id a, m !! id = Some a → id ∈ X) → size m ≤ size X.
Proof.
  intros Hnamed. rewrite <- (size_dom (D:=gset nat) m). apply subseteq_size.
  intros id [a Ha]%elem_of_dom. eauto.
Qed.

Lemma size_union_le (X Y : gset nat) : size (X ∪ Y) ≤ size X + size Y.
Proof.
  rewrite size_union_alt.
  assert (Hsub : Y ∖ X ⊆ Y) by (intros x [Hx _]%elem_of_difference; exact Hx).
  apply subseteq_size in Hsub. lia.
Qed.

Lemma size_handle_set (h : option nat) : size (handle_set h) ≤ 1.
Proof. destruct h; cbn; [rewrite size_singleton | rewrite size_empty]; lia. Qed.

Lemma active_sources_bound (w : World T) : consistent w → active_sources w ≤ 3.
Proof.
  intros Hc. unfold active_sources.
  assert (Hf : size (frames w)
               ≤ size (handle_set (renderRequestId (this w))
                       ∪ (handle_set (animationFrameId (this w))
                          ∪ handle_set (holdZoomFrameId (this w))))).
  { apply size_named_le. intros id cb Hl. apply (frames_named w Hc) in Hl.
    destruct cb; cbn in Hl; rewrite Hl; cbn; set_solver. }
  assert (Ht : size (timers w) ≤ size (handle_set (debounceTimeoutId (this w)))).
  { apply size_named_le. intros id cb Hl. apply (timers_named w Hc) in Hl.
    rewrite Hl. cbn. set_solver. }
  assert (Hloop : size (handle_set (animationFrameId (this w))
                        ∪ handle_set (holdZoomFrameId (this w))) ≤ 1).
  { destruct (one_loop w Hc) as [-> | ->]; cbn.
    - rewrite (left_id_L ∅ (∪)). apply size_handle_set.
    - rewrite (right_id_L ∅ (∪)). apply size_handle_set. }
  pose proof (size_union_le (handle_set (renderRequestId (this w)))
                (handle_set (animationFrameId (this w))
                 ∪ handle_set (holdZoomFrameId (this w)))).
  pose proof (size_handle_set (renderRequestId (this w))).
  pose proof (size_handle_set (debounceTimeoutId (this w))).
  lia.
Qed.

(** ** Timing sources, cancellation and the hold-zoom stop *)

(** C1, amended: at every state the controller can reach, a pending frame
    callback or timer is the one the handle of its kind names, so at most one
    zoom-animation frame, one hold-zoom frame, one scheduled render frame and
    one debounce timer are pending; the zoom animation and the hold-zoom loop
    are never pending together, so at most three timing sources are active.
    [animateZoom] and [startHoldZoom] cancel every pending source before they
    arm their own; [render] and [endInteraction] cancel only the pending source
    of the kind they arm, and leave a running loop and the other kind as they
    are. *)
Theorem one_pending_source_per_kind (history : list (Event T)) :
  let w := run history initial in
  (∀ id cb, frames w !! id = Some cb → frameHandle (frameKind cb) (this w) = Some id) ∧
  (∀ id cb, timers w !! id = Some cb → debounceTimeoutId (this w) = Some id) ∧
  (∀ id1 id2 cb1 cb2,
     frames w !! id1 = Some cb1 → frames w !! id2 = Some cb2 →
     frameKind cb1 = frameKind cb2 → id1 = id2) ∧
  (∀ id1 id2 cb1 cb2,
     timers w !! id1 = Some cb1 → timers w !! id2 = Some cb2 → id1 = id2) ∧
  (∀ id1 id2 cb1 cb2,
     frames w !! id1 = Some cb1 → frames w !! id2 = Some cb2 →
     frameKind cb1 = ZoomAnimation → frameKind cb2 ≠ HoldZoomLoop) ∧
  active_sources w ≤ 3 ∧
  (∀ viewport settings target aspectRatio onComplete now,
     let w' := exec (animateZoom viewport settings target aspectRatio onComplete now) w in
     frames w' = {[ nextFrame w :=
                      AnimStep viewport settings target aspectRatio now onComplete ]} ∧
     timers w' = ∅) ∧
  (∀ viewport settings target aspectRatio now,
     let w' := exec (startHoldZoom viewport settings target aspectRatio now) w in
     frames w' = {[ nextFrame w := HoldStep viewport settings target aspectRatio now ]} ∧
     timers w' = ∅) ∧
  (∀ viewport settings,
     let w' := exec (render viewport settings true) w in
     frames w' = frames w ∧ timers w' = {[ nextTimer w := Debounce ]}) ∧
  (∀ viewport settings,
     let w' := exec (render viewport settings false) w in
     timers w' = timers w ∧
     (∀ id cb, frameKind cb ≠ ScheduledRender →
               frames w' !! id = Some cb ↔ frames w !! id = Some cb) ∧
     frames w' !! nextFrame w = Some RenderFrame) ∧
  (let w' := exec endInteraction w in
   timers w' = timers w ∧
   (∀ id cb, frameKind cb ≠ ScheduledRender →
             frames w' !! id = Some cb ↔ frames w !! id = Some cb) ∧
   frames w' !! nextFrame w = Some RenderFrame).
Proof.
  intros w. pose proof (reachable_consistent history) as Hc. fold w in Hc.
  repeat match goal with |- _ ∧ _ => split end.
  - exact (frames_named w Hc).
  - exact (timers_named w Hc).
  - intros id1 id2 cb1 cb2 H1 H2 Hkind.
    apply (frames_named w Hc) in H1, H2. rewrite Hkind in H1. congruence.
  - intros id1 id2 cb1 cb2 H1 H2.
    apply (timers_named w Hc) in H1, H2. congruence.
  - intros id1 id2 cb1 cb2 H1 H2 Hk1 Hk2.
    apply (frames_named w Hc) in H1, H2. rewrite Hk1 in H1. rewrite Hk2 in H2.
    cbn in H1, H2. destruct (one_loop w Hc); congruence.
  - exact (active_sources_bound w Hc).
  - intros viewport settings target aspectRatio onComplete now.
    destruct (animateZoom_arms w viewport settings target aspectRatio onComplete now Hc)
      as (Hframes & Htimers & _).
    split; assumption.
  - intros viewport settings target aspectRatio now.
    destruct (startHoldZoom_arms w viewport settings target aspectRatio now Hc)
      as (Hframes & Htimers & _).
    split; assumption.
  - intros viewport settings.
    exact (render_debounced_replaces w viewport settings Hc).
  - intros viewport settings.
    exact (render_immediate_replaces w viewport settings Hc).
  - exact (endInteraction_replaces w Hc).
Qed.

(** C6: when [animateZoom] is called in any reachable state, in particular
    while a hold-zoom loop is running, the only callback left pending is the
    first frame of the new animation.  Along every later history that does not
    call [startHoldZoom] again no hold-zoom frame runs, and a [stopHoldZoom]
    after it adds nothing to the output: no final render and no call of its
    completion callback.  The animation goes on: a [stopHoldZoom] right after
    [animateZoom] leaves its frame pending, and when the browser runs that
    frame the animation's viewport is rendered. *)
Theorem animateZoom_cancels_hold_zoom (history post : list (Event T))
    (viewport : Viewport T) (settings : RenderSettings T) (target : ComplexPoint T)
    (aspectRatio : T) (onComplete : option nat) (now : T)
    (stopSettings : RenderSettings T) (stopCallback : option nat) :
  forallb (λ e, negb (is_startHoldZoom e)) post = true →
  let w := run history initial in
  let w1 := exec (animateZoom viewport settings target aspectRatio onComplete now) w in
  let anim := AnimStep viewport settings target aspectRatio now onComplete in
  let stopped := exec (stopHoldZoom stopSettings stopCallback) w1 in
  frames w1 = {[ nextFrame w := anim ]} ∧
  hold_runs post w1 = 0 ∧
  output (exec (stopHoldZoom stopSettings stopCallback) (run post w1))
    = output (run post w1) ∧
  animationFrameId (this w1) = Some (nextFrame w) ∧
  output stopped = output w1 ∧
  frames stopped !! nextFrame w = Some anim ∧
  (∀ now',
     let t := Math_min (fromZ 1) (div (sub now' now) (fromZ 450)) in
     ∃ rest,
       output (step stopped (EFrame (nextFrame w) now'))
         = output w1
           ++ rendererRender
                (animViewport viewport settings target aspectRatio (easeInOutQuad t))
                (animSettingsOf settings) :: rest).
Proof.
  intros Hpost w w1 anim stopped.
  pose proof (reachable_consistent history) as Hc. fold w in Hc.
  destruct (animateZoom_arms w viewport settings target aspectRatio onComplete now Hc)
    as (Hframes & _ & Han & Hhz & Hhl & _).
  fold w1 anim in Hframes, Han, Hhz, Hhl.
  assert (Hidle : hold_idle w1).
  { split; [exact Hhl |]. intros id cb Hl. rewrite Hframes in Hl.
    apply lookup_singleton_Some in Hl as [_ <-]. discriminate. }
  destruct (hold_idle_run post w1 Hidle Hpost) as [[Hhl' _] Hquiet].
  assert (Hpending : frames stopped !! nextFrame w = Some anim).
  { apply stopHoldZoom_keeps_animation; [exact Hhz |].
    rewrite Hframes. apply lookup_singleton_eq. }
  assert (Hout : output stopped = output w1).
  { apply (stopHoldZoom_no_viewport w1). exact Hhl. }
  repeat apply conj; try assumption.
  - apply (stopHoldZoom_no_viewport (run post w1)). exact Hhl'.
  - intros now' t. rewrite <- Hout.
    apply (animation_frame_renders stopped _ _ _ _ _ _ _ _ Hpending).
Qed.

Lemma clears_hold_viewport_spec (w : World T) e :
  clears_hold_viewport e = true → holdLastViewport (this (step w e)) = None.
Proof.
  intros He. destruct e; try discriminate; open_raw w; run_raw; try reflexivity.
  all: destruct hl, onComplete; reflexivity.
Qed.

Lemma holdLastViewport_kept (w : World T) e :
  runs_hold_step w e = false →
  holdLastViewport (this w) = None →
  holdLastViewport (this (step w e)) = None.
Proof.
  intros Hrun Hhl. destruct e; cbn in Hrun.
  1-3, 7-8: apply clears_hold_viewport_spec; reflexivity.
  - open_raw w; run_raw; assumption.
  - open_raw w; run_raw; assumption.
  - open_raw w; destruct debounce; run_raw; assumption.
  - destruct w as [[rr db an hz hl lv ls] fr tm nf nt out]; cbn in *. run_raw.
    destruct (fr !! id) as [[] |]; try discriminate; run_raw; try assumption.
    + destruct (lt _ _); [assumption |]. destruct onComplete; assumption.
    + destruct lv, ls; assumption.
  - destruct w as [[rr db an hz hl lv ls] fr tm nf nt out]; cbn in *. run_raw.
    destruct (tm !! id) as [[] |]; run_raw; try assumption.
    destruct lv, ls; assumption.
Qed.

Lemma holdLastViewport_quiet (events : list (Event T)) :
  ∀ w, hold_runs events w = 0 →
       holdLastViewport (this w) = None →
       holdLastViewport (this (run events w)) = None.
Proof.
  induction events as [| e events IH]; intros w Hquiet Hhl; [exact Hhl |].
  cbn in Hquiet |- *. destruct (runs_hold_step w e) eqn:Hrun; [discriminate |].
  apply IH; [exact Hquiet |]. apply holdLastViewport_kept; assumption.
Qed.

(** C10: when no hold-zoom frame has run since the last call that resets the
    stored hold viewport ([startHoldZoom], [cancel], a method that calls
    [cancel], or an earlier [stopHoldZoom]), or since the controller was
    constructed, [stopHoldZoom] renders nothing, calls no
    completion callback, and leaves [lastViewport] and [lastSettings] as they
    were. *)
Theorem stopHoldZoom_without_stored_viewport
    (post : list (Event T)) (settings : RenderSettings T) (onComplete : option nat) :
  (∀ w0 e,
     clears_hold_viewport e = true →
     hold_runs post (step w0 e) = 0 →
     let w := run post (step w0 e) in
     let w' := exec (stopHoldZoom settings onComplete) w in
     output w' = output w ∧
     lastViewport (this w') = lastViewport (this w) ∧
     lastSettings (this w') = lastSettings (this w)) ∧
  (hold_runs post initial = 0 →
   let w := run post initial in
   let w' := exec (stopHoldZoom settings onComplete) w in
   output w' = output w ∧
   lastViewport (this w') = lastViewport (this w) ∧
   lastSettings (this w') = lastSettings (this w)).
Proof.
  split.
  - intros w0 e He Hquiet w. apply stopHoldZoom_no_viewport.
    apply holdLastViewport_quiet; [exact Hquiet |].
    apply clears_hold_viewport_spec, He.
  - intros Hquiet w. apply stopHoldZoom_no_viewport.
    apply holdLastViewport_quiet; [exact Hquiet | reflexivity].
Qed.
End SchedulerLaws.

(** ** The scheduler on concrete histories *)

Section SchedulerExamples.
Local Open Scope R_scope.

(** A hold-zoom that is started, runs one frame and is stopped: the stop
    renders the last viewport at full quality and reports it. *)
Example hold_zoom_completes :
  let v := demo_viewport in
  let s := demo_settings in
  let final := holdViewport v demo_target (4 / 3) 0 16 in
  output (run [EStartHoldZoom v s demo_target (4 / 3) 0; EFrame 1 16;
               EStopHoldZoom s (Some 7%nat)] initial)
  = [updatePalette "classic"; rendererRender final (animSettingsOf s);
     rendererRender final s; onCompleteCall 7 final].
Proof. reflexivity. Qed.

Lemma lt_R_false (a b : R) : b <= a → lt a b = false.
Proof. intros Hle. cbn. destruct (Rlt_dec a b); [lra | reflexivity]. Qed.

Lemma animation_done_at_450 : Math_min (fromZ 1) (div (sub 450 0) (fromZ 450)) = 1.
Proof. cbn. rewrite Rmin_left; lra. Qed.

(** A zoom animation whose first frame comes 450 ms after its start: the
    frame draws the target view at reduced and then at full quality, reports
    it, and arms nothing further. *)
Example zoom_animation_completes :
  let v := demo_viewport in
  let s := demo_settings in
  let final := animViewport v s demo_target (4 / 3) (easeInOutQuad 1) in
  let w := run [EAnimateZoom v s demo_target (4 / 3) (Some 7%nat) 0; EFrame 1 450]
             initial in
  output w
  = [updatePalette "classic"; rendererRender final (animSettingsOf s);
     rendererRender final s; onCompleteCall 7 final] ∧
  active_sources w = 0%nat.
Proof.
  intros v s final w. subst w. unfold run. cbn [fold_left].
  change (step initial (EAnimateZoom v s demo_target (4 / 3) (Some 7%nat) 0))
    with (mkWorld (mkController None None (Some 1%nat) None None None None)
            {[ 1%nat := AnimStep v s demo_target (4 / 3) 0 (Some 7%nat) ]} ∅ 2 1
            [updatePalette "classic"]).
  unfold step, exec, handle, fireFrame. cbn [frames].
  rewrite lookup_singleton_eq.
  unfold mbind, St_bind, cancelAnimationFrame, runFrame, animStep.
  rewrite animation_done_at_450, (lt_R_false 1 (fromZ 1)) by (cbn; lra).
  split; reflexivity.
Qed.

(** C1 as stated fails: a debounced [render] followed by an immediate one
    leaves a timer and a frame pending; a [render] during a zoom animation,
    and an [endInteraction] during a hold-zoom, leave the loop running next to
    the render frame they schedule. *)
Lemma two_timing_sources_at_once :
  let v := demo_viewport in
  let s := demo_settings in
  let w_debounce := run [ERender v s true; ERender v s false] initial in
  let w_animation :=
    run [EAnimateZoom v s demo_target (4 / 3) None 0; ERender v s false] initial in
  let w_hold :=
    run [EStartHoldZoom v s demo_target (4 / 3) 0; EEndInteraction] initial in
  (active_sources w_debounce = 2%nat ∧
   ¬ (active_sources w_debounce <= 1)%nat ∧
   timers w_debounce !! 1%nat = Some Debounce ∧
   frames w_debounce !! 1%nat = Some RenderFrame) ∧
  (active_sources w_animation = 2%nat ∧
   frames w_animation !! 1%nat = Some (AnimStep v s demo_target (4 / 3) 0 None) ∧
   frames w_animation !! 2%nat = Some RenderFrame) ∧
  (active_sources w_hold = 2%nat ∧
   frames w_hold !! 1%nat = Some (HoldStep v s demo_target (4 / 3) 0) ∧
   frames w_hold !! 2%nat = Some RenderFrame).
Proof.
  cbv zeta. repeat split; try reflexivity.
  match goal with
  | |- ¬ (?n <= 1)%nat => replace n with 2%nat by reflexivity
  end.
  lia.
Qed.

(** Three sources at once: a hold-zoom loop, a debounce timer and a scheduled
    render frame. *)
Example three_timing_sources_at_once :
  let v := demo_viewport in
  let s := demo_settings in
  active_sources
    (run [EStartHoldZoom v s demo_target (4 / 3) 0; ERender v s true;
          ERender v s false] initial) = 3%nat.
Proof. reflexivity. Qed.

Lemma one_pending_source_per_kind_demo :
  let w := run [ERender demo_viewport demo_settings true;
                ERender demo_viewport demo_settings false] initial in
  debounceTimeoutId (this w) = Some 1%nat ∧
  renderRequestId (this w) = Some 1%nat ∧
  (active_sources w <= 3)%nat.
Proof.
  intros w.
  destruct (one_pending_source_per_kind
              [ERender demo_viewport demo_settings true;
               ERender demo_viewport demo_settings false])
    as (Hframes & Htimers & _ & _ & _ & Hbound & _).
  split; [| split].
  - apply (Htimers 1%nat Debounce). reflexivity.
  - apply (Hframes 1%nat RenderFrame). reflexivity.
  - exact Hbound.
Defined.

Lemma animateZoom_cancels_hold_zoom_demo :
  let v := demo_viewport in
  let s := demo_settings in
  let history := [EStartHoldZoom v s demo_target (4 / 3) 0; EFrame 1 16] in
  let post := [ERender v s false; EFrame 3 40; EEndInteraction] in
  let w1 := exec (animateZoom v s demo_target (4 / 3) (Some 7%nat) 32)
              (run history initial) in
  hold_runs post w1 = 0%nat ∧
  output (exec (stopHoldZoom s (Some 9%nat)) (run post w1)) = output (run post w1).
Proof.
  intros v s history post w1.
  destruct (animateZoom_cancels_hold_zoom history post v s demo_target (4 / 3)
              (Some 7%nat) 32 s (Some 9%nat) eq_refl)
    as (_ & Hquiet & Hstop & _).
  split; [exact Hquiet | exact Hstop].
Defined.

Lemma stopHoldZoom_without_stored_viewport_demo :
  let s := demo_settings in
  let start := EStartHoldZoom demo_viewport s demo_target (4 / 3) 0 in
  let before_first_frame := step initial start in
  let stopped_once := run [EStopHoldZoom s (Some 7%nat)] (step initial start) in
  output (exec (stopHoldZoom s (Some 7%nat)) before_first_frame)
    = output before_first_frame ∧
  output (exec (stopHoldZoom s (Some 7%nat)) stopped_once) = output stopped_once.
Proof.
  intros s start before_first_frame stopped_once. split.
  - apply (proj1 (stopHoldZoom_without_stored_viewport [] s (Some 7%nat))
             initial start eq_refl eq_refl).
  - apply (proj1 (stopHoldZoom_without_stored_viewport
                    [EStopHoldZoom s (Some 7%nat)] s (Some 7%nat))
             initial start eq_refl eq_refl).
Defined.
End SchedulerExamples.

(** * Further properties of the code *)

(** ** Selections, bounds and the zoom factor *)

Section SelectionLaws.
Local Open Scope R_scope.

Lemma fraction_of_span (p W span : R) :
  0 < W → 0 <= p <= W → 0 <= span → 0 <= p / W * span <= span.
Proof.
  intros HW [Hp0 HpW] Hs.
  assert (H0 : 0 <= p / W).
  { apply Rmult_le_pos; [exact Hp0 | apply Rlt_le, Rinv_0_lt_compat, HW]. }
  assert (H1 : p / W <= 1).
  { apply Rmult_le_reg_r with (r := W); [exact HW |].
    replace (p / W * W) with p by (field; lra). lra. }
  split; [apply Rmult_le_pos; assumption |].
  replace span with (1 * span) at 2 by ring.
  apply Rmult_le_compat_r; assumption.
Qed.

(** X1: the bounds returned by [getViewportBounds] are the plane images of the
    canvas corners: pixel [(0, 0)] is the top-left corner [(left, top)], pixel
    [(canvasWidth, canvasHeight)] the bottom-right corner [(right, bottom)];
    the centre of the viewport is drawn at the centre of the canvas; and every
    pixel of the canvas maps to a point inside the bounds. *)
Theorem canvas_maps_into_bounds (v : Viewport R) (canvasWidth canvasHeight : R) :
  valid_viewport v → 0 < canvasWidth → 0 < canvasHeight →
  let b := getViewportBounds v in
  pixelToComplex v 0 0 canvasWidth canvasHeight = mkComplex (left b) (top b) ∧
  pixelToComplex v canvasWidth canvasHeight canvasWidth canvasHeight
    = mkComplex (right b) (bottom b) ∧
  complexToPixel v (centerRe v) (centerIm v) canvasWidth canvasHeight
    = mkPixel (canvasWidth / 2) (canvasHeight / 2) ∧
  (∀ pixelX pixelY,
     0 <= pixelX <= canvasWidth → 0 <= pixelY <= canvasHeight →
     within b (pixelToComplex v pixelX pixelY canvasWidth canvasHeight)).
Proof.
  intros [Hw Hh] HW HH b. subst b.
  unfold getViewportBounds, pixelToComplex, complexToPixel, within;
    cbn [left right top bottom re im].
  cbn [sub add mul div fromZ R_JsNum].
  split; [f_equal; field; lra | split; [f_equal; field; lra |]].
  split; [f_equal; field; lra |].
  intros pixelX pixelY Hx Hy.
  pose proof (fraction_of_span pixelX canvasWidth (width v) HW Hx ltac:(lra)).
  pose proof (fraction_of_span pixelY canvasHeight (height v) HH Hy ltac:(lra)).
  lra.
Qed.

Lemma canvas_maps_into_bounds_centre :
  within (getViewportBounds (mkViewport (-1 / 2) 0 4 3))
    (pixelToComplex (mkViewport (-1 / 2) 0 4 3) 400 300 800 600).
Proof.
  assert (Hv : valid_viewport (mkViewport (-1 / 2) 0 4 3))
    by (unfold valid_viewport; simpl; lra).
  apply (proj2 (proj2 (proj2
           (canvas_maps_into_bounds _ 800 600 Hv ltac:(lra) ltac:(lra)))));
    lra.
Defined.

(** X2: the zoom factor of the home view is exactly [1] for every positive
    aspect ratio, landscape or portrait, and dividing both spans of a valid
    viewport by [k > 0] multiplies its zoom factor by [k]. *)
Theorem getZoomFactor_of_home (a : R) :
  0 < a →
  getZoomFactor (resetViewport a) = 1 ∧
  (∀ v k, valid_viewport v → 0 < k →
     getZoomFactor (mkViewport (centerRe v) (centerIm v) (width v / k) (height v / k))
     = k * getZoomFactor v).
Proof.
  intros Ha. split.
  - unfold getZoomFactor. rewrite resetViewport_width, resetViewport_height.
    unfold lit_1_05. cbn [mul div fromZ Math_min R_JsNum].
    destruct (Rle_dec a 1) as [Hle | Hgt].
    + rewrite Rmax_left by lra. rewrite Rmin_left.
      * field.
      * apply Rmult_le_reg_r with (r := a); [exact Ha |].
        replace (3 * (105 / 100) / a * a) with (3 * (105 / 100)) by (field; lra).
        nra.
    + rewrite Rmax_right by lra. rewrite Rmin_right.
      * field. lra.
      * replace (3 * a * (105 / 100) / a) with (3 * (105 / 100)) by (field; lra).
        nra.
  - intros v k [Hw Hh] Hk. unfold getZoomFactor; cbn [width height].
    unfold lit_1_05. cbn [mul div fromZ Math_min R_JsNum].
    assert (Hmin : Rmin (width v / k) (height v / k) = Rmin (width v) (height v) / k).
    { unfold Rmin. destruct (Rle_dec (width v) (height v)) as [Hle | Hgt].
      - destruct (Rle_dec _ _) as [_ | Hn]; [reflexivity |].
        exfalso. apply Hn. apply Rmult_le_compat_r; [| exact Hle].
        apply Rlt_le, Rinv_0_lt_compat, Hk.
      - destruct (Rle_dec _ _) as [Hle' | _]; [| reflexivity].
        exfalso. apply Hgt.
        apply Rmult_le_reg_r with (r := / k); [apply Rinv_0_lt_compat, Hk |].
        exact Hle'. }
    rewrite Hmin.
    assert (Hpos : 0 < Rmin (width v) (height v)) by (apply Rmin_glb_lt; assumption).
    field. lra.
Qed.

Lemma getZoomFactor_of_home_portrait : getZoomFactor (resetViewport (9 / 16)) = 1.
Proof. apply (getZoomFactor_of_home (9 / 16)). lra. Defined.

(** X3: selecting the whole canvas with a viewport that has the aspect ratio
    of the canvas returns the viewport unchanged. *)
Theorem zoomToRect_whole_canvas (v : Viewport R) (canvas : CanvasSize.t R) :
  positive_canvas canvas → fits_canvas v canvas →
  zoomToRect v (Rect.mk 0 0 (CanvasSize.width canvas) (CanvasSize.height canvas)) canvas
  = v.
Proof.
  intros [HW HH] Hfit. unfold fits_canvas in Hfit.
  unfold zoomToRect. cbn [Rect.x Rect.y Rect.width Rect.height].
  rewrite gt_R_false by lra.
  unfold pixelToComplex, createViewport; cbn [re im].
  cbn [sub add mul div fromZ R_JsNum].
  destruct v as [cRe cIm w h]; cbn [width height centerRe centerIm] in *.
  f_equal; try (field; lra).
  rewrite Hfit. field. lra.
Qed.

Lemma zoomToRect_whole_canvas_4_3 :
  zoomToRect (mkViewport (-1 / 2) 0 4 3) (Rect.mk 0 0 800 600) (CanvasSize.mk 800 600)
  = mkViewport (-1 / 2) 0 4 3.
Proof.
  apply (zoomToRect_whole_canvas (mkViewport (-1 / 2) 0 4 3) (CanvasSize.mk 800 600)).
  - unfold positive_canvas; simpl; lra.
  - unfold fits_canvas; simpl; lra.
Defined.

Lemma zoomToRect_centre (v : Viewport R) (rect : Rect.t R) (canvas : CanvasSize.t R) :
  mkComplex (centerRe (zoomToRect v rect canvas)) (centerIm (zoomToRect v rect canvas))
  = pixelToComplex v (Rect.x rect + Rect.width rect / 2)
      (Rect.y rect + Rect.height rect / 2)
      (CanvasSize.width canvas) (CanvasSize.height canvas).
Proof. unfold zoomToRect. destruct (gt _ _); reflexivity. Qed.

(** X4: in real arithmetic, after [zoomToRect] the centre of the canvas shows
    the plane point that was under the midpoint of the selection, whichever
    axis drove the sizing: the new centre is that point, and the new viewport
    maps the pixel [(canvasWidth / 2, canvasHeight / 2)] to it. *)
Theorem zoomToRect_recentres (v : Viewport R) (rect : Rect.t R) (canvas : CanvasSize.t R) :
  positive_canvas canvas →
  let W := CanvasSize.width canvas in
  let H := CanvasSize.height canvas in
  let v' := zoomToRect v rect canvas in
  let midpoint :=
    pixelToComplex v (Rect.x rect + Rect.width rect / 2)
      (Rect.y rect + Rect.height rect / 2) W H in
  mkComplex (centerRe v') (centerIm v') = midpoint ∧
  pixelToComplex v' (W / 2) (H / 2) W H = midpoint.
Proof.
  intros [HW HH] W H v' midpoint. subst W H v' midpoint.
  unfold zoomToRect.
  destruct (gt _ _); unfold pixelToComplex, createViewport;
    cbn [re im centerRe centerIm width height];
    cbn [sub add mul div fromZ R_JsNum]; split; f_equal; field; lra.
Qed.

Lemma zoomToRect_recentres_quadrant :
  let v := mkViewport (-1 / 2) 0 4 3 in
  let canvas := CanvasSize.mk 800 600 in
  pixelToComplex (zoomToRect v (Rect.mk 400 0 400 300) canvas) (800 / 2) (600 / 2) 800 600
  = pixelToComplex v (400 + 400 / 2) (0 + 300 / 2) 800 600.
Proof.
  intros v canvas.
  apply (zoomToRect_recentres v (Rect.mk 400 0 400 300) canvas).
  unfold positive_canvas; simpl; lra.
Defined.

Lemma zoomToRect_spans (v : Viewport R) (rect : Rect.t R) (canvas : CanvasSize.t R) :
  valid_viewport v → positive_rect rect → positive_canvas canvas → fits_canvas v canvas →
  let v' := zoomToRect v rect canvas in
  let sx := Rect.width rect / CanvasSize.width canvas in
  let sy := Rect.height rect / CanvasSize.height canvas in
  width v' = Rmax sx sy * width v ∧ height v' = Rmax sx sy * height v.
Proof.
  intros [Hvw Hvh] [Hrw Hrh] [HW HH] Hfit v' sx sy. unfold fits_canvas in Hfit.
  set (W := CanvasSize.width canvas) in *. set (H := CanvasSize.height canvas) in *.
  assert (Hcmp : W / H < Rect.width rect / Rect.height rect ↔ sy < sx).
  { unfold sx, sy.
    split; intros Hlt.
    - apply Rmult_lt_reg_r with (r := H * W); [nra |].
      replace (Rect.height rect / H * (H * W)) with (Rect.height rect * W) by (field; lra).
      replace (Rect.width rect / W * (H * W)) with (Rect.width rect * H) by (field; lra).
      apply Rmult_lt_compat_r with (r := H * Rect.height rect) in Hlt; [| nra].
      replace (W / H * (H * Rect.height rect)) with (W * Rect.height rect) in Hlt
        by (field; lra).
      replace (Rect.width rect / Rect.height rect * (H * Rect.height rect))
        with (Rect.width rect * H) in Hlt by (field; lra).
      lra.
    - apply Rmult_lt_reg_r with (r := H * Rect.height rect); [nra |].
      replace (W / H * (H * Rect.height rect)) with (W * Rect.height rect) by (field; lra).
      replace (Rect.width rect / Rect.height rect * (H * Rect.height rect))
        with (Rect.width rect * H) by (field; lra).
      apply Rmult_lt_compat_r with (r := H * W) in Hlt; [| nra].
      replace (Rect.height rect / H * (H * W)) with (Rect.height rect * W) in Hlt
        by (field; lra).
      replace (Rect.width rect / W * (H * W)) with (Rect.width rect * H) in Hlt
        by (field; lra).
      lra. }
  destruct (Rlt_dec (W / H) (Rect.width rect / Rect.height rect)) as [Hwide | Htall].
  - destruct (zoomToRect_width_driven v rect canvas Hwide) as [Hw Hh].
    fold v' W H in Hw, Hh. apply Hcmp in Hwide.
    rewrite Rmax_left by lra. fold sx in Hw. split; [exact Hw |].
    rewrite Hh, Hw, Hfit. field. lra.
  - apply Rnot_lt_le in Htall.
    destruct (zoomToRect_height_driven v rect canvas Htall) as [Hh Hw].
    fold v' W H in Hw, Hh.
    assert (Hle : sx <= sy).
    { destruct (Rle_dec sx sy) as [Hle | Hn]; [exact Hle |].
      apply Rnot_le_lt, Hcmp in Hn. lra. }
    rewrite Rmax_right by lra. fold sy in Hh. split; [| exact Hh].
    rewrite Hw, Hh, Hfit. ring.
Qed.

(** X5: in real arithmetic, when the viewport has the aspect ratio of the
    canvas, the viewport returned by [zoomToRect] shows the whole selection:
    every pixel inside the selection rectangle denotes a plane point inside
    the bounds of the new viewport. *)
Theorem zoomToRect_shows_selection (v : Viewport R) (rect : Rect.t R)
    (canvas : CanvasSize.t R) :
  valid_viewport v → positive_rect rect → positive_canvas canvas → fits_canvas v canvas →
  ∀ pixelX pixelY,
    inside_rect rect pixelX pixelY →
    within (getViewportBounds (zoomToRect v rect canvas))
      (pixelToComplex v pixelX pixelY
         (CanvasSize.width canvas) (CanvasSize.height canvas)).
Proof.
  intros Hv Hr Hc Hfit pixelX pixelY [Hx Hy].
  destruct (zoomToRect_spans v rect canvas Hv Hr Hc Hfit) as [Hw Hh].
  pose proof (zoomToRect_centre v rect canvas) as Hcentre.
  cbv zeta in Hw, Hh.
  unfold within, getViewportBounds; cbn [left right top bottom].
  injection Hcentre as -> ->. rewrite Hw, Hh.
  destruct Hv as [Hvw Hvh], Hr as [Hrw Hrh], Hc as [HW HH].
  set (W := CanvasSize.width canvas) in *. set (H := CanvasSize.height canvas) in *.
  set (m := Rmax (Rect.width rect / W) (Rect.height rect / H)).
  assert (Hmx : Rect.width rect / W <= m) by apply Rmax_l.
  assert (Hmy : Rect.height rect / H <= m) by apply Rmax_r.
  unfold pixelToComplex; cbn [re im]. cbn [sub add mul div fromZ R_JsNum].
  set (dx := pixelX - (Rect.x rect + Rect.width rect / 2)).
  set (dy := pixelY - (Rect.y rect + Rect.height rect / 2)).
  replace (pixelX / W * width v)
    with ((Rect.x rect + Rect.width rect / 2) / W * width v + dx / W * width v)
    by (unfold dx; field; lra).
  replace (pixelY / H * height v)
    with ((Rect.y rect + Rect.height rect / 2) / H * height v + dy / H * height v)
    by (unfold dy; field; lra).
  assert (Hdx : - (m * width v / 2) <= dx / W * width v <= m * width v / 2).
  { assert (Hb : - (Rect.width rect / W / 2) <= dx / W <= Rect.width rect / W / 2).
    { unfold dx. split.
      - apply Rmult_le_reg_r with (r := W); [exact HW |].
        replace ((pixelX - (Rect.x rect + Rect.width rect / 2)) / W * W)
          with (pixelX - (Rect.x rect + Rect.width rect / 2)) by (field; lra).
        replace (- (Rect.width rect / W / 2) * W) with (- (Rect.width rect / 2))
          by (field; lra).
        lra.
      - apply Rmult_le_reg_r with (r := W); [exact HW |].
        replace ((pixelX - (Rect.x rect + Rect.width rect / 2)) / W * W)
          with (pixelX - (Rect.x rect + Rect.width rect / 2)) by (field; lra).
        replace (Rect.width rect / W / 2 * W) with (Rect.width rect / 2)
          by (field; lra).
        lra. }
    nra. }
  assert (Hdy : - (m * height v / 2) <= dy / H * height v <= m * height v / 2).
  { assert (Hb : - (Rect.height rect / H / 2) <= dy / H <= Rect.height rect / H / 2).
    { unfold dy. split.
      - apply Rmult_le_reg_r with (r := H); [exact HH |].
        replace ((pixelY - (Rect.y rect + Rect.height rect / 2)) / H * H)
          with (pixelY - (Rect.y rect + Rect.height rect / 2)) by (field; lra).
        replace (- (Rect.height rect / H / 2) * H) with (- (Rect.height rect / 2))
          by (field; lra).
        lra.
      - apply Rmult_le_reg_r with (r := H); [exact HH |].
        replace ((pixelY - (Rect.y rect + Rect.height rect / 2)) / H * H)
          with (pixelY - (Rect.y rect + Rect.height rect / 2)) by (field; lra).
        replace (Rect.height rect / H / 2 * H) with (Rect.height rect / 2)
          by (field; lra).
        lra. }
    nra. }
  lra.
Qed.

Lemma zoomToRect_shows_selection_corner :
  let v := mkViewport (-1 / 2) 0 4 3 in
  let rect := Rect.mk 100 50 300 100 in
  within (getViewportBounds (zoomToRect v rect (CanvasSize.mk 800 600)))
    (pixelToComplex v 400 150 800 600).
Proof.
  intros v rect.
  apply (zoomToRect_shows_selection v rect (CanvasSize.mk 800 600)).
  - unfold valid_viewport; simpl; lra.
  - unfold positive_rect; simpl; lra.
  - unfold positive_canvas; simpl; lra.
  - unfold fits_canvas; simpl; lra.
  - unfold inside_rect; simpl; lra.
Defined.

(** X6: in real arithmetic, when the viewport has the aspect ratio of the
    canvas, [zoomToRect] scales both spans by the same factor, the larger of
    the fractions of the canvas the selection takes horizontally and
    vertically, and divides the zoom factor by it; a selection that fits in
    the canvas never zooms out. *)
Theorem zoomToRect_scales_uniformly (v : Viewport R) (rect : Rect.t R)
    (canvas : CanvasSize.t R) :
  valid_viewport v → positive_rect rect → positive_canvas canvas → fits_canvas v canvas →
  let v' := zoomToRect v rect canvas in
  let m := Rmax (Rect.width rect / CanvasSize.width canvas)
             (Rect.height rect / CanvasSize.height canvas) in
  width v' = m * width v ∧
  height v' = m * height v ∧
  getZoomFactor v' = getZoomFactor v / m ∧
  (Rect.width rect <= CanvasSize.width canvas →
   Rect.height rect <= CanvasSize.height canvas →
   width v' <= width v ∧ height v' <= height v ∧ getZoomFactor v <= getZoomFactor v').
Proof.
  intros Hv Hr Hc Hfit v' m.
  destruct (zoomToRect_spans v rect canvas Hv Hr Hc Hfit) as [Hw Hh].
  fold v' m in Hw, Hh.
  destruct Hv as [Hvw Hvh], Hr as [Hrw Hrh], Hc as [HW HH].
  assert (Hm : 0 < m).
  { apply Rlt_le_trans with (r2 := Rect.width rect / CanvasSize.width canvas);
      [apply Rdiv_pos; assumption | apply Rmax_l]. }
  assert (Hmin : Rmin (m * width v) (m * height v) = m * Rmin (width v) (height v)).
  { unfold Rmin. destruct (Rle_dec (width v) (height v)) as [Hle | Hgt].
    - destruct (Rle_dec _ _) as [_ | Hn]; [reflexivity |]. exfalso. apply Hn. nra.
    - destruct (Rle_dec _ _) as [Hle' | _]; [| reflexivity]. exfalso. apply Hgt. nra. }
  assert (Hpos : 0 < Rmin (width v) (height v)) by (apply Rmin_glb_lt; assumption).
  assert (Hzoom : getZoomFactor v' = getZoomFactor v / m).
  { unfold getZoomFactor. rewrite Hw, Hh. unfold lit_1_05.
    cbn [mul div fromZ Math_min R_JsNum]. rewrite Hmin. field. lra. }
  split; [exact Hw | split; [exact Hh | split; [exact Hzoom |]]].
  intros Hfw Hfh.
  assert (Hm1 : m <= 1).
  { apply Rmax_lub.
    - apply Rmult_le_reg_r with (r := CanvasSize.width canvas); [exact HW |].
      replace (Rect.width rect / CanvasSize.width canvas * CanvasSize.width canvas)
        with (Rect.width rect) by (field; lra). lra.
    - apply Rmult_le_reg_r with (r := CanvasSize.height canvas); [exact HH |].
      replace (Rect.height rect / CanvasSize.height canvas * CanvasSize.height canvas)
        with (Rect.height rect) by (field; lra). lra. }
  rewrite Hw, Hh, Hzoom. repeat split; try nra.
  assert (Hz : 0 < getZoomFactor v).
  { unfold getZoomFactor, lit_1_05. cbn [mul div fromZ Math_min R_JsNum].
    apply Rdiv_pos; lra. }
  apply Rmult_le_reg_r with (r := m); [exact Hm |].
  replace (getZoomFactor v / m * m) with (getZoomFactor v) by (field; lra).
  nra.
Qed.

Lemma zoomToRect_scales_uniformly_quarter :
  let v := mkViewport (-1 / 2) 0 4 3 in
  let v' := zoomToRect v (Rect.mk 200 150 400 300) (CanvasSize.mk 800 600) in
  width v' = Rmax (400 / 800) (300 / 600) * 4 ∧
  height v' = Rmax (400 / 800) (300 / 600) * 3.
Proof.
  intros v v'.
  destruct (zoomToRect_scales_uniformly v (Rect.mk 200 150 400 300) (CanvasSize.mk 800 600))
    as (Hw & Hh & _).
  - unfold valid_viewport; simpl; lra.
  - unfold positive_rect; simpl; lra.
  - unfold positive_canvas; simpl; lra.
  - unfold fits_canvas; simpl; lra.
  - split; [exact Hw | exact Hh].
Defined.
End SelectionLaws.

(** ** Counts and smooth values of the kernel *)

Section KernelCounts.
Context {T : Type} `{JsNum T} `{JsMath T}.

(** Below any bound the bailout test either never succeeds or succeeds for a
    first time. *)
Lemma first_escape_or_none (cRe cIm : T) (n : nat) :
  (∀ k, k < n → escaped cRe cIm k = false) ∨
  (∃ i, i < n ∧ escaped cRe cIm i = true ∧ ∀ k, k < i → escaped cRe cIm k = false).
Proof.
  induction n as [| n [Hnone | (i & Hi & Hesc & Hbefore)]].
  - left. intros k Hk. lia.
  - destruct (escaped cRe cIm n) eqn:Hn.
    + right. exists n. repeat split; [lia | exact Hn | exact Hnone].
    + left. intros k Hk. destruct (decide (k = n)) as [-> | Hne]; [exact Hn |].
      apply Hnone. lia.
  - right. exists i. repeat split; [lia | exact Hesc | exact Hbefore].
Qed.

(** The two ways both kernels can end. *)
Lemma kernels_cases (cRe cIm : T) (maxIterations : nat) :
  ((∀ k, k < maxIterations → escaped cRe cIm k = false) ∧
   escapeIterations cRe cIm maxIterations = maxIterations ∧
   smoothEscape cRe cIm maxIterations = fromNat maxIterations) ∨
  (∃ i, i < maxIterations ∧ escaped cRe cIm i = true ∧
        (∀ k, k < i → escaped cRe cIm k = false) ∧
        escapeIterations cRe cIm maxIterations = i ∧
        smoothEscape cRe cIm maxIterations
          = smoothValue (fst (orbit cRe cIm i)) (snd (orbit cRe cIm i)) i maxIterations).
Proof.
  destruct (first_escape_or_none cRe cIm maxIterations)
    as [Hnone | (i & Hi & Hesc & Hbefore)].
  - left. split; [exact Hnone |].
    apply loops_interior; [reflexivity |]. intros k Hk. apply Hnone. lia.
  - right. exists i.
    destruct (kernels_escape cRe cIm maxIterations i Hi Hesc Hbefore) as [Hc Hs].
    repeat split; assumption.
Qed.

(** X7: for every point and every budget, in whatever arithmetic,
    [escapeIterations] returns the first iteration at which the bailout test
    succeeds, or the budget when there is none below it: the result never
    exceeds the budget, the test fails at every iteration before the result,
    and it succeeds at the result when the result is below the budget. *)
Theorem escapeIterations_first_escape (cRe cIm : T) (maxIterations : nat) :
  let n := escapeIterations cRe cIm maxIterations in
  n ≤ maxIterations ∧
  (∀ k, k < n → escaped cRe cIm k = false) ∧
  (n < maxIterations → escaped cRe cIm n = true).
Proof.
  intros n. subst n.
  destruct (kernels_cases cRe cIm maxIterations)
    as [(Hnone & -> & _) | (i & Hi & Hesc & Hbefore & -> & _)].
  - repeat split; [lia | exact Hnone | lia].
  - repeat split; [lia | exact Hbefore | intros _; exact Hesc].
Qed.

(** X8: the count under a budget is the count under any larger budget, cut
    off at the smaller one.  So the count never decreases when the budget
    grows, and once a point has escaped within a budget every larger budget
    returns the same count. *)
Theorem escapeIterations_budget (cRe cIm : T) (small large : nat) :
  small ≤ large →
  escapeIterations cRe cIm small
    = Nat.min small (escapeIterations cRe cIm large) ∧
  escapeIterations cRe cIm small ≤ escapeIterations cRe cIm large ∧
  (escapeIterations cRe cIm small < small →
   escapeIterations cRe cIm large = escapeIterations cRe cIm small).
Proof.
  intros Hle.
  assert (Hmin : escapeIterations cRe cIm small
                 = Nat.min small (escapeIterations cRe cIm large)).
  { destruct (kernels_cases cRe cIm large)
      as [(Hnone & -> & _) | (i & Hi & Hesc & Hbefore & -> & _)].
    - rewrite Nat.min_l by lia.
      apply loops_interior; [reflexivity |]. intros k Hk. apply Hnone. lia.
    - destruct (decide (i < small)) as [Hlt | Hge].
      + rewrite Nat.min_r by lia.
        apply (kernels_escape cRe cIm small i Hlt Hesc Hbefore).
      + rewrite Nat.min_l by lia.
        apply loops_interior; [reflexivity |]. intros k Hk. apply Hbefore. lia. }
  split; [exact Hmin | split]; lia.
Qed.
End KernelCounts.

Section KernelRegions.
Local Open Scope R_scope.
Local Abbreviation sqrt := R_sqrt.sqrt.

Lemma escapeIterations_budget_9_4 :
  escapeIterations (T:=R) (9 / 4) 0 1000 = escapeIterations (T:=R) (9 / 4) 0 10.
Proof.
  destruct (escapeIterations_budget (T:=R) (9 / 4) 0 10 1000) as (_ & _ & Hsame);
    [lia |].
  apply Hsame. rewrite (proj1 smoothEscape_9_4_value). lia.
Defined.

Lemma escaped_zero (cRe cIm : R) : escaped cRe cIm 0 = false.
Proof.
  unfold escaped. cbn [orbit]. apply gt_R_false.
  unfold magnitudeSq, bailoutSq, bailout. cbn [add mul fromZ R_JsNum]. lra.
Qed.

Lemma orbit_one (cRe cIm : R) : orbit cRe cIm 1 = (cRe, cIm).
Proof.
  cbn [orbit]. unfold next_z. cbn [add sub mul fromZ R_JsNum]. f_equal; ring.
Qed.

Lemma escaped_one (cRe cIm : R) :
  escaped cRe cIm 1 = true ↔ 4 < cRe * cRe + cIm * cIm.
Proof.
  unfold escaped. rewrite orbit_one. unfold magnitudeSq, bailoutSq, bailout.
  cbn [add mul fromZ]. apply gt_R_spec.
Qed.

(** What [smoothEscape] returns, with the bounds on the correction term. *)
Lemma smoothEscape_cases (cRe cIm : R) (maxIterations : nat) :
  (escapeIterations cRe cIm maxIterations = maxIterations ∧
   smoothEscape cRe cIm maxIterations = INR maxIterations) ∨
  (∃ (i : nat) (correction : R),
     (1 ≤ i < maxIterations)%nat ∧ 0 < correction < 2 ∧
     escapeIterations cRe cIm maxIterations = i ∧
     smoothEscape cRe cIm maxIterations = INR i + 1 - correction).
Proof.
  destruct (kernels_cases cRe cIm maxIterations)
    as [(_ & Hc & Hs) | (i & Hi & Hesc & Hbefore & Hc & Hs)].
  - left. rewrite Hs, fromNat_INR. split; [exact Hc | reflexivity].
  - right.
    assert (Hi1 : (1 ≤ i)%nat).
    { destruct i; [| lia]. rewrite escaped_zero in Hesc. discriminate. }
    set (m := magnitudeSq (fst (orbit cRe cIm i)) (snd (orbit cRe cIm i))) in *.
    assert (Hm : 4 < m).
    { unfold escaped in Hesc. subst m. destruct (orbit cRe cIm i) as [zRe zIm].
      apply gt_R_spec in Hesc. exact Hesc. }
    pose proof (correction_bounds m Hm) as Hcorr.
    exists i, (ln 4 / ln (sqrt m)).
    split; [lia | split; [exact Hcorr | split; [exact Hc |]]].
    rewrite Hs. unfold smoothValue. fold m. rewrite !fromNat_INR.
    unfold logBailout, bailout.
    cbn [Math_sqrt Math_log Math_min R_JsMath add sub div fromZ R_JsNum].
    apply Rmin_left.
    assert (Hle : INR i + 1 <= INR maxIterations).
    { rewrite <- S_INR. apply le_INR. lia. }
    destruct Hcorr. lra.
Qed.

(** X9: for every point and budget, [smoothEscape] returns a value in
    [[0, maxIterations]], as its comment says, and that value is less than
    one unit away from the integer count [escapeIterations] returns. *)
Theorem smoothEscape_range (cRe cIm : R) (maxIterations : nat) :
  0 <= smoothEscape cRe cIm maxIterations <= INR maxIterations ∧
  Rabs (smoothEscape cRe cIm maxIterations
        - INR (escapeIterations cRe cIm maxIterations)) < 1.
Proof.
  destruct (smoothEscape_cases cRe cIm maxIterations)
    as [[-> ->] | (i & corr & [Hi1 Him] & [Hc0 Hc2] & -> & ->)].
  - pose proof (pos_INR maxIterations).
    replace (INR maxIterations - INR maxIterations) with 0 by ring.
    rewrite Rabs_R0. lra.
  - assert (H1 : 1 <= INR i) by (change 1 with (INR 1); apply le_INR; lia).
    assert (Hle : INR i + 1 <= INR maxIterations).
    { rewrite <- S_INR. apply le_INR. lia. }
    split; [lra |].
    unfold Rabs. destruct (Rcase_abs _); lra.
Qed.

(** X10: with a budget of at least [1] the count is at least [1], since the
    orbit starts at the origin; with a budget of at least [2] the count is
    exactly [1] for the points outside the disc of radius [2], and for no
    other point. *)
Theorem escapeIterations_outside_disc (cRe cIm : R) (maxIterations : nat) :
  ((1 ≤ maxIterations)%nat → (1 ≤ escapeIterations cRe cIm maxIterations)%nat) ∧
  ((2 ≤ maxIterations)%nat →
   escapeIterations cRe cIm maxIterations = 1%nat ↔ 4 < cRe * cRe + cIm * cIm).
Proof.
  destruct (kernels_cases cRe cIm maxIterations)
    as [(Hnone & -> & _) | (i & Hi & Hesc & Hbefore & -> & _)].
  - split; [intros; assumption |]. intros Hm. split; [lia |].
    intros Hout. apply escaped_one in Hout. rewrite Hnone in Hout by lia. discriminate.
  - assert (Hi1 : (1 ≤ i)%nat).
    { destruct i; [| lia]. rewrite escaped_zero in Hesc. discriminate. }
    split; [intros _; exact Hi1 |]. intros Hm. split.
    + intros ->. apply escaped_one, Hesc.
    + intros Hout. apply escaped_one in Hout.
      destruct (decide (i = 1%nat)) as [-> | Hne]; [reflexivity |].
      rewrite Hbefore in Hout by lia. discriminate.
Qed.

Lemma orbit_small (cRe cIm : R) (k : nat) :
  cRe * cRe + cIm * cIm <= 1 / 16 →
  fst (orbit cRe cIm k) * fst (orbit cRe cIm k)
  + snd (orbit cRe cIm k) * snd (orbit cRe cIm k) <= 1 / 4.
Proof.
  intros Hc. induction k as [| k IH].
  - cbn. lra.
  - cbn [orbit]. destruct (orbit cRe cIm k) as [zRe zIm]. cbn [fst snd] in *.
    unfold next_z. cbn [fst snd add sub mul fromZ R_JsNum].
    set (A := zRe * zRe - zIm * zIm). set (B := 2 * zRe * zIm).
    assert (HAB : A * A + B * B = (zRe * zRe + zIm * zIm) * (zRe * zRe + zIm * zIm))
      by (unfold A, B; ring).
    assert (HAB16 : A * A + B * B <= 1 / 16).
    { rewrite HAB. pose proof (Rle_0_sqr zRe). pose proof (Rle_0_sqr zIm).
      unfold Rsqr in *. nra. }
    pose proof (Rle_0_sqr (A - cRe)). pose proof (Rle_0_sqr (B - cIm)).
    unfold Rsqr in *. nra.
Qed.

(** X11: every point within distance [1/4] of the origin is reported
    interior under every budget: its orbit stays within distance [1/2] of the
    origin, so both kernels return the budget. *)
Theorem near_origin_is_interior (cRe cIm : R) (maxIterations : nat) :
  cRe * cRe + cIm * cIm <= 1 / 16 →
  escapeIterations cRe cIm maxIterations = maxIterations ∧
  smoothEscape cRe cIm maxIterations = INR maxIterations.
Proof.
  intros Hc. rewrite <- fromNat_INR.
  apply loops_interior; [reflexivity |]. intros k _.
  pose proof (orbit_small cRe cIm k Hc) as Hk.
  unfold escaped. destruct (orbit cRe cIm k) as [zRe zIm]. cbn [fst snd] in Hk.
  apply gt_R_false. unfold magnitudeSq, bailoutSq, bailout.
  cbn [add mul fromZ R_JsNum]. lra.
Qed.

Lemma near_origin_is_interior_fifth :
  escapeIterations (T:=R) (1 / 5) (-1 / 10) 256 = 256%nat.
Proof. apply (near_origin_is_interior (1 / 5) (-1 / 10) 256). lra. Defined.

Lemma orbit_conjugate (cRe cIm : R) (k : nat) :
  orbit cRe (- cIm) k = (fst (orbit cRe cIm k), - snd (orbit cRe cIm k)).
Proof.
  induction k as [| k IH].
  - cbn. f_equal. ring.
  - cbn [orbit]. rewrite IH. destruct (orbit cRe cIm k) as [zRe zIm]. cbn [fst snd].
    unfold next_z. cbn [fst snd add sub mul fromZ R_JsNum]. f_equal; ring.
Qed.

Lemma magnitudeSq_conjugate (cRe cIm : R) (k : nat) :
  magnitudeSq (fst (orbit cRe (- cIm) k)) (snd (orbit cRe (- cIm) k))
  = magnitudeSq (fst (orbit cRe cIm k)) (snd (orbit cRe cIm k)).
Proof.
  rewrite orbit_conjugate. cbn [fst snd]. unfold magnitudeSq.
  cbn [add mul R_JsNum]. ring.
Qed.

Lemma escaped_conjugate (cRe cIm : R) (k : nat) :
  escaped cRe (- cIm) k = escaped cRe cIm k.
Proof.
  unfold escaped. pose proof (magnitudeSq_conjugate cRe cIm k) as Hm.
  destruct (orbit cRe (- cIm) k), (orbit cRe cIm k). cbn [fst snd] in Hm.
  rewrite Hm. reflexivity.
Qed.

(** X12: both kernels are symmetric about the real axis: a point and its
    complex conjugate get the same count and the same smooth value. *)
Theorem kernels_mirror_symmetric (cRe cIm : R) (maxIterations : nat) :
  escapeIterations cRe (- cIm) maxIterations = escapeIterations cRe cIm maxIterations ∧
  smoothEscape cRe (- cIm) maxIterations = smoothEscape cRe cIm maxIterations.
Proof.
  destruct (kernels_cases cRe cIm maxIterations)
    as [(Hnone & -> & ->) | (i & Hi & Hesc & Hbefore & -> & ->)].
  - apply loops_interior; [reflexivity |]. intros k Hk.
    rewrite escaped_conjugate. apply Hnone. lia.
  - destruct (kernels_escape cRe (- cIm) maxIterations i Hi) as [-> ->].
    + rewrite escaped_conjugate. exact Hesc.
    + intros k Hk. rewrite escaped_conjugate. apply Hbefore, Hk.
    + split; [reflexivity |]. unfold smoothValue.
      rewrite magnitudeSq_conjugate. reflexivity.
Qed.

(** X13: [batchIterations] returns one value per point, in the order of the
    points, each in [[0, maxIterations]]; in discrete mode the values are the
    integer counts, in smooth mode each is less than one unit away from the
    integer count of its point. *)
Theorem batchIterations_pointwise (points : list (ComplexPoint R))
    (maxIterations : nat) (smooth : bool) :
  length (batchIterations points maxIterations smooth) = length points ∧
  (∀ i p, points !! i = Some p →
     ∃ value,
       batchIterations points maxIterations smooth !! i = Some value ∧
       0 <= value <= INR maxIterations ∧
       Rabs (value - INR (escapeIterations (re p) (im p) maxIterations)) < 1 ∧
       (smooth = false → value = INR (escapeIterations (re p) (im p) maxIterations))).
Proof.
  unfold batchIterations. split; [apply length_map |].
  intros i p Hp. rewrite list_lookup_fmap, Hp. cbn [fmap option_fmap option_map].
  eexists. split; [reflexivity |]. destruct smooth.
  - destruct (smoothEscape_cases (re p) (im p) maxIterations)
      as [[-> ->] | (j & corr & [Hj1 Hjm] & [Hc0 Hc2] & -> & ->)].
    + pose proof (pos_INR maxIterations).
      replace (INR maxIterations - INR maxIterations) with 0 by ring.
      rewrite Rabs_R0.
      split; [lra | split; [lra | intros Hf; discriminate Hf]].
    + assert (H1 : 1 <= INR j) by (change 1 with (INR 1); apply le_INR; lia).
      assert (Hle : INR j + 1 <= INR maxIterations).
      { rewrite <- S_INR. apply le_INR. lia. }
      split; [lra | split; [| intros Hf; discriminate Hf]].
      unfold Rabs. destruct (Rcase_abs _); lra.
  - rewrite fromNat_INR.
    pose proof (pos_INR (escapeIterations (re p) (im p) maxIterations)).
    assert (Hle : INR (escapeIterations (re p) (im p) maxIterations) <= INR maxIterations).
    { apply le_INR.
      destruct (kernels_cases (re p) (im p) maxIterations)
        as [(_ & -> & _) | (j & Hj & _ & _ & -> & _)]; lia. }
    split; [lra | split; [| intros _; reflexivity]].
    replace (_ - _) with 0 by ring. rewrite Rabs_R0. lra.
Qed.
End KernelRegions.

(** ** What the scheduler draws, and when *)

(** The table is empty: every entry it could hold is named by a handle that
    has just been cleared. *)
Ltac nothing_pending Hfn Htn :=
  let i := fresh "i" in let cb := fresh "cb" in let Hl := fresh "Hl" in
  apply map_eq; intros i; rewrite lookup_empty;
  apply eq_None_not_Some; intros [cb Hl];
  map_facts; named Hfn Htn; simplify_eq; first [done | lia].

(** The table holds the callback just requested under [nf] and nothing else. *)
Ltac armed_alone nf Hfn Htn :=
  let i := fresh "i" in let cb := fresh "cb" in let Hl := fresh "Hl" in
  apply map_eq; intros i;
  destruct (decide (i = nf)) as [-> | ?];
  [ first [ by rewrite !lookup_insert_eq | idtac ] | ];
  rewrite ?lookup_insert_ne by done; rewrite lookup_empty;
  apply eq_None_not_Some; intros [cb Hl];
  map_facts; named Hfn Htn; simplify_eq; first [done | lia].

(** The step has kept [blank]. *)
Ltac still_blank Hfr :=
  let i := fresh "i" in let cb := fresh "cb" in let Hl := fresh "Hl" in
  repeat split; cbn; try first [reflexivity | assumption];
  intros i cb Hl; map_facts; subst; first [reflexivity | by eapply Hfr; eassumption].

Section SchedulerQuiescence.
Context {T : Type} `{JsNum T} `{JsMath T}.

Lemma exec_then {A} (m : St T A) (k : St T unit) (w : World T) :
  exec (m;; k) w = exec k (exec m w).
Proof.
  unfold exec, mbind, St_bind. destruct (m w) as [a w']. reflexivity.
Qed.

Lemma step_frame_pending (w : World T) id cb now :
  frames w !! id = Some cb →
  step w (EFrame id now) = exec (cancelAnimationFrame id;; runFrame cb now) w.
Proof. intros Hl. unfold step, exec, handle, fireFrame. rewrite Hl. reflexivity. Qed.

Lemma step_frame_idle (w : World T) id now :
  frames w !! id = None → step w (EFrame id now) = w.
Proof. intros Hl. unfold step, exec, handle, fireFrame. rewrite Hl. reflexivity. Qed.


Lemma step_timer_idle (w : World T) id :
  timers w !! id = None → step w (ETimeout id) = w.
Proof. intros Hl. unfold step, exec, handle, fireTimer. rewrite Hl. reflexivity. Qed.

Lemma cancel_quiescent (w : World T) :
  consistent w →
  quiescent (exec cancel w) ∧
  output (exec cancel w) = output w ∧
  lastViewport (this (exec cancel w)) = lastViewport (this w) ∧
  lastSettings (this (exec cancel w)) = lastSettings (this w).
Proof.
  intros Hc. unfold quiescent. open_world w Hc; run_method.
  all: repeat split; try reflexivity; nothing_pending Hfn Htn.
Qed.

Lemma quiescent_browser_step (w : World T) e :
  quiescent w → is_browser_event e = true → step w e = w.
Proof.
  intros (Hf & Ht & _) He. destruct e; try discriminate.
  - apply step_frame_idle. rewrite Hf. apply lookup_empty.
  - apply step_timer_idle. rewrite Ht. apply lookup_empty.
Qed.

Lemma quiescent_browser_run (events : list (Event T)) (w : World T) :
  quiescent w → forallb is_browser_event events = true → run events w = w.
Proof.
  intros Hq. induction events as [| e events IH]; intros Hev; [reflexivity |].
  cbn in Hev. apply andb_true_iff in Hev as [He Hev].
  cbn. fold (step w e). rewrite (quiescent_browser_step w e Hq He).
  apply IH, Hev.
Qed.

(** X14: after [cancel], called in any state the controller can reach, no
    frame callback and no timer is pending and every handle is [null]; nothing
    is rendered by the call, the stored last viewport and settings are kept,
    and whatever frames or timeouts the browser fires afterwards find nothing
    to run and leave the state as it is.  [destroy] does the same and then
    destroys the renderer. *)
Theorem cancel_leaves_nothing_pending (history later : list (Event T)) :
  forallb is_browser_event later = true →
  let w := run history initial in
  quiescent (exec cancel w) ∧
  output (exec cancel w) = output w ∧
  lastViewport (this (exec cancel w)) = lastViewport (this w) ∧
  lastSettings (this (exec cancel w)) = lastSettings (this w) ∧
  run later (exec cancel w) = exec cancel w ∧
  quiescent (exec destroy w) ∧
  output (exec destroy w) = output w ++ [rendererDestroy] ∧
  run later (exec destroy w) = exec destroy w.
Proof.
  intros Hlater w.
  pose proof (reachable_consistent history) as Hc. fold w in Hc.
  destruct (cancel_quiescent w Hc) as (Hq & Hout & Hlv & Hls).
  assert (Hqd : quiescent (exec destroy w)).
  { unfold destroy. rewrite exec_then. exact Hq. }
  repeat match goal with |- _ ∧ _ => split end; try assumption.
  - apply quiescent_browser_run; assumption.
  - unfold destroy. rewrite exec_then. cbn. rewrite Hout. reflexivity.
  - apply quiescent_browser_run; assumption.
Qed.

Lemma render_immediate_stores (w : World T) viewport settings :
  consistent w →
  let w' := exec (render viewport settings false) w in
  lastViewport (this w') = Some viewport ∧
  lastSettings (this w') = Some settings ∧
  renderRequestId (this w') = Some (nextFrame w) ∧
  nextFrame w' = S (nextFrame w) ∧
  output w' = output w ∧
  frames w' !! nextFrame w = Some RenderFrame ∧
  (∀ id, renderRequestId (this w) = Some id → frames w' !! id = None).
Proof.
  intros Hc w'. subst w'. open_world w Hc; run_method.
  all: repeat split; try reflexivity; try (by rewrite lookup_insert_eq).
  all: intros id Hid; simplify_eq.
  all: rewrite lookup_insert_ne by lia; apply lookup_delete_eq.
Qed.

Lemma render_frame_draws (w : World T) id now viewport settings :
  frames w !! id = Some RenderFrame →
  lastViewport (this w) = Some viewport →
  lastSettings (this w) = Some settings →
  let w' := step w (EFrame id now) in
  output w' = output w ++ [updatePalette (palette settings);
                           rendererRender viewport settings] ∧
  renderRequestId (this w') = None ∧
  frames w' = delete id (frames w) ∧
  timers w' = timers w.
Proof.
  intros Hl Hlv Hls w'. subst w'. rewrite (step_frame_pending w id _ now Hl).
  destruct w as [[rr db an hz hl lv ls] fr tm nf nt out]; cbn in *. subst lv ls.
  run_raw. rewrite <- app_assoc. repeat split.
Qed.





End SchedulerQuiescence.

Lemma cancel_leaves_nothing_pending_mid_zoom :
  let w := run [ERender demo_viewport demo_settings true;
                EStartHoldZoom demo_viewport demo_settings demo_target (4 / 3)%R 0%R;
                EFrame 1 16%R; ERender demo_viewport demo_settings true] initial in
  run [EFrame 2 32%R; ETimeout 2; EFrame 1 48%R] (exec cancel w) = exec cancel w.
Proof.
  intros w.
  destruct (cancel_leaves_nothing_pending
              [ERender demo_viewport demo_settings true;
               EStartHoldZoom demo_viewport demo_settings demo_target (4 / 3)%R 0%R;
               EFrame 1 16%R; ERender demo_viewport demo_settings true]
              [EFrame 2 32%R; ETimeout 2; EFrame 1 48%R] eq_refl)
    as (_ & _ & _ & _ & Hrun & _).
  exact Hrun.
Defined.

Section SchedulerSessions.
Context {T : Type} `{JsNum T} `{JsMath T}.

Lemma startHoldZoom_state (w : World T) viewport settings target aspectRatio now :
  consistent w →
  exec (startHoldZoom viewport settings target aspectRatio now) w
  = holding w (nextFrame w) (HoldStep viewport settings target aspectRatio now) None
      (output w ++ [updatePalette (palette settings)]).
Proof.
  intros Hc. unfold holding. open_world w Hc; run_method.
  all: f_equal; first [armed_alone nf Hfn Htn | nothing_pending Hfn Htn].
Qed.

Lemma animateZoom_state (w : World T) viewport settings target aspectRatio
    onComplete now :
  consistent w →
  exec (animateZoom viewport settings target aspectRatio onComplete now) w
  = animating w (nextFrame w)
      (AnimStep viewport settings target aspectRatio now onComplete)
      (output w ++ [updatePalette (palette settings)]).
Proof.
  intros Hc. unfold animating. open_world w Hc; run_method.
  all: f_equal; first [armed_alone nf Hfn Htn | nothing_pending Hfn Htn].
Qed.

Lemma hold_frame_fires (w : World T) id start settings target aspectRatio startTime
    hl out now :
  let cb := HoldStep start settings target aspectRatio startTime in
  let v := holdViewport start target aspectRatio startTime now in
  step (holding w id cb hl out) (EFrame id now)
  = holding w (S id) cb (Some v) (out ++ [rendererRender v (animSettingsOf settings)]).
Proof.
  intros cb v. unfold holding.
  erewrite step_frame_pending by apply lookup_singleton_eq.
  run_raw. rewrite delete_singleton_eq, insert_empty. reflexivity.
Qed.

Lemma hold_frames_fire (w : World T) start settings target aspectRatio startTime
    (times : list T) :
  ∀ id hl out,
    let cb := HoldStep start settings target aspectRatio startTime in
    let hv := holdViewport start target aspectRatio startTime in
    run (frames_from id times) (holding w id cb hl out)
    = holding w (id + length times) cb
        (match last times with Some now => Some (hv now) | None => hl end)
        (out ++ map (λ now, rendererRender (hv now) (animSettingsOf settings)) times).
Proof.
  induction times as [| now times IH]; intros id hl out cb hv; subst cb hv.
  - cbn. rewrite Nat.add_0_r, app_nil_r. reflexivity.
  - cbn [frames_from run fold_left].
    rewrite (hold_frame_fires w id start settings target aspectRatio startTime hl out now).
    match goal with
    | |- fold_left step ?es ?w0 = _ => change (fold_left step es w0) with (run es w0)
    end.
    rewrite IH. cbn [length map]. rewrite Nat.add_succ_r, <- app_assoc. cbn [app].
    rewrite last_cons. destruct (last times); reflexivity.
Qed.

(** X18: a hold-zoom session, started in any state the controller can reach.
    [startHoldZoom] cancels what was pending and requests a frame; each frame
    the browser then runs draws, at reduced quality, the viewport centred on
    the target whose width is the starting width shrunk for the time elapsed,
    and requests the next frame, so exactly one frame is pending after any
    number of them.  [stopHoldZoom] cancels that frame; if at least one frame
    has run it draws the last viewport once more with the settings it is
    given, stores it as the last viewport and hands it to the completion
    callback; nothing is pending afterwards. *)
Theorem hold_zoom_session (history : list (Event T))
    (viewport : Viewport T) (settings : RenderSettings T) (target : ComplexPoint T)
    (aspectRatio startTime : T) (times : list T)
    (stopSettings : RenderSettings T) (onComplete : option nat) :
  let w := run history initial in
  let cb := HoldStep viewport settings target aspectRatio startTime in
  let hv := holdViewport viewport target aspectRatio startTime in
  let drawn :=
    output w ++ updatePalette (palette settings)
      :: map (λ now, rendererRender (hv now) (animSettingsOf settings)) times in
  let zooming :=
    run (EStartHoldZoom viewport settings target aspectRatio startTime
         :: frames_from (nextFrame w) times) w in
  let stopped := exec (stopHoldZoom stopSettings onComplete) zooming in
  zooming = holding w (nextFrame w + length times) cb (hv <$> last times) drawn ∧
  stopped
  = match last times with
    | Some now =>
        idle w (S (nextFrame w + length times)) (Some (hv now)) (Some stopSettings)
          (drawn ++ rendererRender (hv now) stopSettings :: completion onComplete (hv now))
    | None =>
        idle w (S (nextFrame w + length times))
          (lastViewport (this w)) (lastSettings (this w)) drawn
    end.
Proof.
  intros w cb hv drawn zooming stopped.
  pose proof (reachable_consistent history) as Hc. fold w in Hc.
  assert (Hz : zooming
               = holding w (nextFrame w + length times) cb (hv <$> last times) drawn).
  { subst zooming. cbn [run fold_left].
    change (step w (EStartHoldZoom viewport settings target aspectRatio startTime))
      with (exec (startHoldZoom viewport settings target aspectRatio startTime) w).
    rewrite (startHoldZoom_state w _ _ _ _ _ Hc).
    match goal with
    | |- fold_left step ?es ?w0 = _ => change (fold_left step es w0) with (run es w0)
    end.
    rewrite hold_frames_fire. subst drawn. rewrite <- app_assoc. cbn [app].
    destruct (last times); reflexivity. }
  split; [exact Hz |].
  subst stopped. rewrite Hz. unfold holding, idle.
  pose proof (frame_counter_pos w Hc) as Hpos.
  destruct (last times) as [now |]; cbn [fmap option_fmap option_map];
    destruct onComplete; run_method; rewrite ?delete_singleton_eq, <- ?app_assoc;
    reflexivity.
Qed.

Lemma anim_frame_continues (w : World T) id start settings target aspectRatio startTime
    onComplete out now :
  lt (animProgress startTime now) (fromZ 1) = true →
  let cb := AnimStep start settings target aspectRatio startTime onComplete in
  let v := animFrame start settings target aspectRatio startTime now in
  step (animating w id cb out) (EFrame id now)
  = animating w (S id) cb (out ++ [rendererRender v (animSettingsOf settings)]).
Proof.
  intros Ht cb v. unfold animating.
  erewrite step_frame_pending by apply lookup_singleton_eq.
  unfold animProgress in Ht. run_raw. rewrite Ht. run_raw.
  rewrite delete_singleton_eq, insert_empty. reflexivity.
Qed.

Lemma anim_frame_finishes (w : World T) id start settings target aspectRatio startTime
    onComplete out now :
  lt (animProgress startTime now) (fromZ 1) = false →
  let cb := AnimStep start settings target aspectRatio startTime onComplete in
  let v := animFrame start settings target aspectRatio startTime now in
  step (animating w id cb out) (EFrame id now)
  = idle w (S id) (Some v) (Some settings)
      (out ++ rendererRender v (animSettingsOf settings)
           :: rendererRender v settings :: completion onComplete v).
Proof.
  intros Ht cb v. unfold animating, idle.
  erewrite step_frame_pending by apply lookup_singleton_eq.
  unfold animProgress in Ht. run_raw. rewrite Ht.
  destruct onComplete; run_raw; rewrite delete_singleton_eq, <- ?app_assoc; reflexivity.
Qed.

Lemma anim_frames_continue (w : World T) start settings target aspectRatio startTime
    onComplete (times : list T) :
  ∀ id out,
    forallb (λ now, lt (animProgress startTime now) (fromZ 1)) times = true →
    let cb := AnimStep start settings target aspectRatio startTime onComplete in
    run (frames_from id times) (animating w id cb out)
    = animating w (id + length times) cb
        (out ++ map (λ now, rendererRender
                              (animFrame start settings target aspectRatio startTime now)
                              (animSettingsOf settings)) times).
Proof.
  induction times as [| now times IH]; intros id out Hin cb; subst cb.
  - cbn. rewrite Nat.add_0_r, app_nil_r. reflexivity.
  - cbn in Hin. apply andb_true_iff in Hin as [Hnow Hin].
    cbn [frames_from run fold_left].
    rewrite (anim_frame_continues w id start settings target aspectRatio startTime
               onComplete out now Hnow).
    match goal with
    | |- fold_left step ?es ?w0 = _ => change (fold_left step es w0) with (run es w0)
    end.
    rewrite IH by exact Hin. cbn [length map].
    rewrite Nat.add_succ_r, <- app_assoc. reflexivity.
Qed.

Lemma frames_from_app (id : nat) (times times' : list T) :
  frames_from id (times ++ times')
  = frames_from id times ++ frames_from (id + length times) times'.
Proof.
  revert id. induction times as [| now times IH]; intros id.
  - cbn. rewrite Nat.add_0_r. reflexivity.
  - cbn. rewrite IH, Nat.add_succ_r. reflexivity.
Qed.

(** X19: a zoom animation, started in any state the controller can reach.
    [animateZoom] cancels what was pending and requests a frame.  Each frame
    that runs while the progress is below [1] draws the interpolated viewport
    at reduced quality and requests the next frame.  The first frame at which
    the progress is not below [1] draws its viewport at reduced and then at
    full quality, stores it as the last viewport, hands it to the completion
    callback and requests nothing: the animation is over and nothing is
    pending. *)
Theorem zoom_animation_session (history : list (Event T))
    (viewport : Viewport T) (settings : RenderSettings T) (target : ComplexPoint T)
    (aspectRatio startTime : T) (onComplete : option nat)
    (times : list T) (endTime : T) :
  forallb (λ now, lt (animProgress startTime now) (fromZ 1)) times = true →
  lt (animProgress startTime endTime) (fromZ 1) = false →
  let w := run history initial in
  let cb := AnimStep viewport settings target aspectRatio startTime onComplete in
  let frame := animFrame viewport settings target aspectRatio startTime in
  let drawn :=
    output w ++ updatePalette (palette settings)
      :: map (λ now, rendererRender (frame now) (animSettingsOf settings)) times in
  let start := EAnimateZoom viewport settings target aspectRatio onComplete startTime in
  run (start :: frames_from (nextFrame w) times) w
    = animating w (nextFrame w + length times) cb drawn ∧
  run (start :: frames_from (nextFrame w) (times ++ [endTime])) w
    = idle w (S (nextFrame w + length times)) (Some (frame endTime)) (Some settings)
        (drawn ++ rendererRender (frame endTime) (animSettingsOf settings)
               :: rendererRender (frame endTime) settings
               :: completion onComplete (frame endTime)).
Proof.
  intros Hin Hend w cb frame drawn start.
  pose proof (reachable_consistent history) as Hc. fold w in Hc.
  assert (Hrun : run (start :: frames_from (nextFrame w) times) w
                 = animating w (nextFrame w + length times) cb drawn).
  { cbn [run fold_left].
    change (step w start)
      with (exec (animateZoom viewport settings target aspectRatio onComplete startTime) w).
    rewrite (animateZoom_state w _ _ _ _ _ _ Hc).
    match goal with
    | |- fold_left step ?es ?w0 = _ => change (fold_left step es w0) with (run es w0)
    end.
    rewrite anim_frames_continue by exact Hin.
    subst drawn. rewrite <- app_assoc. reflexivity. }
  split; [exact Hrun |].
  rewrite frames_from_app. cbn [frames_from].
  change (start :: frames_from (nextFrame w) times
            ++ [EFrame (nextFrame w + length times) endTime])
    with ((start :: frames_from (nextFrame w) times)
            ++ [EFrame (nextFrame w + length times) endTime]).
  unfold run in *. rewrite fold_left_app, Hrun. cbn [fold_left].
  apply anim_frame_finishes, Hend.
Qed.
End SchedulerSessions.

Section SchedulerBlank.
Context {T : Type} `{JsNum T} `{JsMath T}.

Lemma blank_step (w : World T) e :
  blank w → brings_no_viewport e = true → blank (step w e).
Proof.
  intros (Hlv & Hhl & Hout & Hfr) He. unfold blank.
  destruct e; try discriminate.
  - open_raw w; subst hl lv out; run_raw; still_blank Hfr.
  - open_raw w; subst hl lv out; run_raw; still_blank Hfr.
  - open_raw w; subst hl lv out; run_raw; still_blank Hfr.
  - open_raw w; subst hl lv out; run_raw; still_blank Hfr.
  - destruct w as [[rr db an hz hl lv ls] fr tm nf nt out]; cbn in *.
    subst hl lv out. run_raw.
    destruct (fr !! id) as [cb |] eqn:Hid; [| still_blank Hfr].
    rewrite (Hfr _ _ Hid). run_raw. still_blank Hfr.
  - destruct w as [[rr db an hz hl lv ls] fr tm nf nt out]; cbn in *.
    subst hl lv out. run_raw.
    destruct (tm !! id) as [[] |]; run_raw; still_blank Hfr.
Qed.

(** X17: before the controller has been handed a viewport, that is while only
    [startInteraction], [endInteraction], [stopHoldZoom], [cancel] and browser
    callbacks have occurred, nothing is drawn: the frame [endInteraction]
    requests finds no stored viewport and returns without calling the
    renderer. *)
Theorem nothing_drawn_before_first_viewport (history : list (Event T)) :
  forallb brings_no_viewport history = true →
  output (run history initial) = [] ∧
  lastViewport (this (run history initial)) = None.
Proof.
  intros Hev.
  assert (Hb : ∀ w, blank w → blank (run history w)).
  { induction history as [| e history IH]; intros w Hw; [exact Hw |].
    cbn in Hev. apply andb_true_iff in Hev as [He Hev].
    cbn. apply IH; [exact Hev |]. apply blank_step; assumption. }
  destruct (Hb initial) as (Hlv & _ & Hout & _).
  - repeat split. intros id cb Hl. cbn in Hl. rewrite lookup_empty in Hl. discriminate.
  - split; assumption.
Qed.

End SchedulerBlank.

Lemma nothing_drawn_before_first_viewport_demo :
  output (run [EEndInteraction; EFrame 1 0%R; EStopHoldZoom demo_settings (Some 7);
               ECancel; EEndInteraction; EStartInteraction; EFrame 2 16%R; ETimeout 1]
            initial) = [].
Proof.
  apply (nothing_drawn_before_first_viewport
           [EEndInteraction; EFrame 1 0%R; EStopHoldZoom demo_settings (Some 7);
            ECancel; EEndInteraction; EStartInteraction; EFrame 2 16%R; ETimeout 1]).
  reflexivity.
Defined.

Section AnimationGeometry.
Local Open Scope R_scope.

Lemma lt_R_true (a b : R) : a < b → lt a b = true.
Proof. intros Hlt. cbn. destruct (Rlt_dec a b); [reflexivity | contradiction]. Qed.

Lemma lt_R_not (a b : R) : b <= a → lt a b = false.
Proof. intros Hle. cbn. destruct (Rlt_dec a b); [lra | reflexivity]. Qed.

Lemma easeInOutQuad_low (t : R) : t < 1 / 2 → easeInOutQuad t = 2 * t * t.
Proof.
  intros Ht. unfold easeInOutQuad. rewrite lt_R_true by (cbn; lra). reflexivity.
Qed.

Lemma easeInOutQuad_high (t : R) : 1 / 2 <= t → easeInOutQuad t = -1 + (4 - 2 * t) * t.
Proof.
  intros Ht. unfold easeInOutQuad. rewrite lt_R_not by (cbn; lra). reflexivity.
Qed.

Lemma easeInOutQuad_ends : easeInOutQuad 0 = 0 ∧ easeInOutQuad 1 = 1.
Proof.
  split.
  - rewrite easeInOutQuad_low by lra. ring.
  - rewrite easeInOutQuad_high by lra. ring.
Qed.

Lemma easeInOutQuad_range (t : R) : 0 <= t <= 1 → 0 <= easeInOutQuad t <= 1.
Proof.
  intros [H0 H1]. destruct (Rlt_dec t (1 / 2)).
  - rewrite easeInOutQuad_low by lra. nra.
  - rewrite easeInOutQuad_high by lra. nra.
Qed.

(** X20: the easing of the zoom animation, [easeInOutQuad], starts at [0],
    passes through [1/2] at [1/2] and ends at [1]; on [[0, 1]] it stays in
    [[0, 1]] and never decreases; and it is symmetric about the midpoint:
    [ease (1 - t) = 1 - ease t] for every [t]. *)
Theorem easeInOutQuad_shape :
  easeInOutQuad 0 = 0 ∧ easeInOutQuad (1 / 2) = 1 / 2 ∧ easeInOutQuad 1 = 1 ∧
  (∀ t, 0 <= t <= 1 → 0 <= easeInOutQuad t <= 1) ∧
  (∀ t1 t2, 0 <= t1 → t1 <= t2 → t2 <= 1 → easeInOutQuad t1 <= easeInOutQuad t2) ∧
  (∀ t, easeInOutQuad (1 - t) = 1 - easeInOutQuad t).
Proof.
  repeat match goal with |- _ ∧ _ => split end.
  - exact (proj1 easeInOutQuad_ends).
  - rewrite easeInOutQuad_high by lra. field.
  - exact (proj2 easeInOutQuad_ends).
  - exact easeInOutQuad_range.
  - intros t1 t2 H0 H12 H1.
    destruct (Rlt_dec t1 (1 / 2)), (Rlt_dec t2 (1 / 2)).
    + rewrite !easeInOutQuad_low by lra. nra.
    + rewrite (easeInOutQuad_low t1), (easeInOutQuad_high t2) by lra. nra.
    + lra.
    + rewrite !easeInOutQuad_high by lra. nra.
  - intros t. destruct (Rlt_dec t (1 / 2)), (Rlt_dec (1 - t) (1 / 2)).
    + lra.
    + rewrite (easeInOutQuad_low t), (easeInOutQuad_high (1 - t)) by lra. ring.
    + rewrite (easeInOutQuad_low (1 - t)), (easeInOutQuad_high t) by lra. ring.
    + replace t with (1 / 2) by lra. replace (1 - 1 / 2) with (1 / 2) by lra.
      rewrite easeInOutQuad_high by lra. field.
Qed.

Lemma animProgress_range (startTime now : R) :
  startTime <= now →
  0 <= animProgress startTime now <= 1 ∧
  (startTime + 450 <= now → animProgress startTime now = 1) ∧
  (now < startTime + 450 → animProgress startTime now < 1).
Proof.
  intros Hle. unfold animProgress. cbn [Math_min sub div fromZ R_JsNum].
  unfold Rmin. destruct (Rle_dec 1 ((now - startTime) / 450)) as [H1 | H1].
  - split; [lra | split; [intros _; reflexivity |]]. intros Hlt. exfalso.
    apply Rmult_le_compat_r with (r := 450) in H1; [| lra].
    replace ((now - startTime) / 450 * 450) with (now - startTime) in H1 by field.
    lra.
  - apply Rnot_le_lt in H1.
    assert (H0 : 0 <= (now - startTime) / 450).
    { apply Rmult_le_pos; [lra |]. apply Rlt_le, Rinv_0_lt_compat. lra. }
    split; [lra | split; [| intros _; exact H1]]. intros Hge. exfalso.
    apply Rmult_lt_compat_r with (r := 450) in H1; [| lra].
    replace ((now - startTime) / 450 * 450) with (now - startTime) in H1 by field.
    lra.
Qed.

(** X21: the viewports a zoom animation draws.  A frame at the start time
    draws the starting centre and width; a frame [450] ms or more after the
    start draws the final view, centred on the target with the starting width
    divided by the zoom factor (by [2] when the settings give none); every
    frame in between has a width between the two when the zoom factor is at
    least [1], and every frame has [height = width / aspectRatio]. *)
Theorem animation_viewports (start : Viewport R) (settings : RenderSettings R)
    (target : ComplexPoint R) (aspectRatio startTime : R) :
  let factor := default 2 (zoomFactor settings) in
  let frame := animFrame start settings target aspectRatio startTime in
  0 < width start → 1 <= factor →
  (∀ now, height (frame now) = width (frame now) / aspectRatio) ∧
  (centerRe (frame startTime) = centerRe start ∧
   centerIm (frame startTime) = centerIm start ∧
   width (frame startTime) = width start) ∧
  (∀ now, startTime + 450 <= now →
     frame now
     = mkViewport (re target) (im target) (width start / factor)
         (width start / factor / aspectRatio)) ∧
  (∀ now, startTime <= now →
     width start / factor <= width (frame now) <= width start).
Proof.
  intros factor frame Hw Hf.
  assert (Hvp : ∀ now,
    frame now
    = let e := easeInOutQuad (animProgress startTime now) in
      mkViewport (centerRe start + (re target - centerRe start) * e)
        (centerIm start + (im target - centerIm start) * e)
        (width start + (width start / factor - width start) * e)
        ((width start + (width start / factor - width start) * e) / aspectRatio))
    by reflexivity.
  destruct easeInOutQuad_ends as [He0 He1]. pose proof easeInOutQuad_range as Hrange.
  repeat match goal with |- _ ∧ _ => split end.
  - intros now. rewrite Hvp. reflexivity.
  - rewrite Hvp. cbn [centerRe].
    destruct (animProgress_range startTime startTime ltac:(lra)) as (_ & _ & Hlt).
    assert (Hp : animProgress startTime startTime = 0).
    { unfold animProgress. cbn [Math_min sub div fromZ R_JsNum].
      replace ((startTime - startTime) / 450) with 0 by field.
      apply Rmin_right. lra. }
    rewrite Hp, He0. ring.
  - rewrite Hvp. cbn [centerIm].
    assert (Hp : animProgress startTime startTime = 0).
    { unfold animProgress. cbn [Math_min sub div fromZ R_JsNum].
      replace ((startTime - startTime) / 450) with 0 by field.
      apply Rmin_right. lra. }
    rewrite Hp, He0. ring.
  - rewrite Hvp. cbn [width].
    assert (Hp : animProgress startTime startTime = 0).
    { unfold animProgress. cbn [Math_min sub div fromZ R_JsNum].
      replace ((startTime - startTime) / 450) with 0 by field.
      apply Rmin_right. lra. }
    rewrite Hp, He0. ring.
  - intros now Hnow. rewrite Hvp.
    destruct (animProgress_range startTime now ltac:(lra)) as (_ & Hdone & _).
    rewrite (Hdone Hnow), He1. cbv zeta. f_equal; unfold Rdiv; ring.
  - intros now Hnow. rewrite Hvp. cbn [width].
    destruct (animProgress_range startTime now Hnow) as (Hp & _).
    pose proof (Hrange _ Hp) as [He0' He1'].
    set (e := easeInOutQuad (animProgress startTime now)) in *.
    assert (Htw : 0 < width start / factor <= width start).
    { split; [apply Rdiv_pos; lra |].
      apply Rmult_le_reg_r with (r := factor); [lra |].
      replace (width start / factor * factor) with (width start) by (field; lra).
      nra. }
    nra.
Qed.

Lemma animation_viewports_demo :
  animFrame demo_viewport demo_settings demo_target (4 / 3) 0 450
  = mkViewport (-3 / 4) (1 / 10) (4 / 2) (4 / 2 / (4 / 3)).
Proof.
  destruct (animation_viewports demo_viewport demo_settings demo_target (4 / 3) 0)
    as (_ & _ & Hend & _).
  - simpl. lra.
  - simpl. lra.
  - apply Hend. lra.
Defined.

Lemma zoom_animation_session_demo :
  let v := demo_viewport in
  let s := demo_settings in
  let frame := animFrame v s demo_target (4 / 3) 0 in
  output (run (EAnimateZoom v s demo_target (4 / 3) (Some 7%nat) 0
               :: frames_from 1 [100; 300; 460]) initial)
  = [updatePalette "classic";
     rendererRender (frame 100) (animSettingsOf s);
     rendererRender (frame 300) (animSettingsOf s);
     rendererRender (frame 460) (animSettingsOf s);
     rendererRender (frame 460) s;
     onCompleteCall 7 (frame 460)].
Proof.
  intros v s frame.
  assert (Hin : forallb (λ now, lt (animProgress 0 now) (fromZ 1)) [100; 300] = true).
  { cbn [forallb]. rewrite !lt_R_true; [reflexivity | | ].
    - apply (animProgress_range 0 300); lra.
    - apply (animProgress_range 0 100); lra. }
  assert (Hend : lt (animProgress 0 460) (fromZ 1) = false).
  { apply lt_R_not. rewrite (proj1 (proj2 (animProgress_range 0 460 ltac:(lra)))); simpl; lra. }
  destruct (zoom_animation_session [] v s demo_target (4 / 3) 0 (Some 7%nat)
              [100; 300] 460 Hin Hend) as [_ Hrun].
  change (run [] initial) with (initial (T:=R)) in Hrun.
  change (nextFrame initial) with 1%nat in Hrun.
  change ([100; 300] ++ [460]) with [100; 300; 460] in Hrun.
  rewrite Hrun. reflexivity.
Defined.

(** X22: the viewports a hold-zoom draws are centred on the target, have
    [height = width / aspectRatio], and a width of the starting width times
    [exp (-1.6 * seconds elapsed)]: equal to the starting width for a frame
    at or before the start time, positive and never above the starting width,
    and never growing from one frame to a later one. *)
Theorem hold_zoom_viewports (start : Viewport R) (target : ComplexPoint R)
    (aspectRatio startTime : R) :
  let frame := holdViewport start target aspectRatio startTime in
  0 < width start →
  (∀ now,
     centerRe (frame now) = re target ∧ centerIm (frame now) = im target ∧
     height (frame now) = width (frame now) / aspectRatio ∧
     0 < width (frame now) <= width start) ∧
  (∀ now, now <= startTime → width (frame now) = width start) ∧
  (∀ now, startTime <= now →
     width (frame now) = width start * exp (- (16 / 10) * ((now - startTime) / 1000))) ∧
  (∀ now1 now2, now1 <= now2 → width (frame now2) <= width (frame now1)).
Proof.
  intros frame Hw.
  assert (Hwidth : ∀ now,
    width (frame now)
    = width start * exp (- (16 / 10) * Rmax 0 ((now - startTime) / 1000)))
    by reflexivity.
  assert (Hexp : ∀ x, 0 <= x → 0 < exp (- (16 / 10) * x) <= 1).
  { intros x Hx. split; [apply exp_pos |].
    destruct (Req_dec x 0) as [-> | Hne].
    - replace (- (16 / 10) * 0) with 0 by ring. rewrite exp_0. lra.
    - rewrite <- exp_0. apply Rlt_le, exp_increasing. lra. }
  repeat match goal with |- _ ∧ _ => split end.
  - intros now. pose proof (Hexp _ (Rmax_l 0 ((now - startTime) / 1000))) as [Hp H1].
    rewrite Hwidth. repeat split; try reflexivity; nra.
  - intros now Hnow. rewrite Hwidth, Rmax_left.
    + replace (- (16 / 10) * 0) with 0 by ring. rewrite exp_0. ring.
    + apply Rmult_le_reg_r with (r := 1000); [lra |].
      replace ((now - startTime) / 1000 * 1000) with (now - startTime) by field. lra.
  - intros now Hnow. rewrite Hwidth, Rmax_right; [reflexivity |].
    apply Rmult_le_pos; [lra |]. apply Rlt_le, Rinv_0_lt_compat. lra.
  - intros now1 now2 Hle. rewrite !Hwidth.
    apply Rmult_le_compat_l; [lra |].
    set (x1 := Rmax 0 ((now1 - startTime) / 1000)).
    set (x2 := Rmax 0 ((now2 - startTime) / 1000)).
    assert (Hx : x1 <= x2).
    { unfold x1, x2. apply Rmax_lub; [apply Rmax_l |].
      apply Rle_trans with (r2 := (now2 - startTime) / 1000); [| apply Rmax_r].
      apply Rmult_le_compat_r; [apply Rlt_le, Rinv_0_lt_compat; lra | lra]. }
    destruct (Req_dec x1 x2) as [-> | Hne]; [lra |].
    apply Rlt_le, exp_increasing. lra.
Qed.

Lemma hold_zoom_viewports_demo :
  width (holdViewport demo_viewport demo_target (4 / 3) 100 40) = 4 ∧
  width (holdViewport demo_viewport demo_target (4 / 3) 100 1100)
    <= width (holdViewport demo_viewport demo_target (4 / 3) 100 600).
Proof.
  destruct (hold_zoom_viewports demo_viewport demo_target (4 / 3) 100)
    as (_ & Hearly & _ & Hmono).
  - simpl. lra.
  - split; [apply Hearly; lra | apply Hmono; lra].
Defined.
End AnimationGeometry.

Section Budgets.
Context {T : Type} `{JsNum T} `{JsMath T}.

(** X23: the render the application requests on every change of viewport or
    settings is drawn with the budget of the quality preset in place of
    [maxIterations], whatever [maxIterations] the settings carry; the frames
    of a zoom animation and of a hold-zoom are drawn with a quarter of the
    preset in its place, but never less than [32] and never more than the
    preset.  Every other setting is passed on as it is. *)
Theorem render_budgets (history : list (Event T)) (vp : Viewport T)
    (cfg : RenderSettings T) (now : T) :
  let w := run history initial in
  let preset := getQualityIterations (quality cfg) in
  let reduced := getProgressiveIterations (quality cfg) true in
  let drawn := mkSettings (fromZ preset) (smoothColoring cfg) (gamma cfg)
                 (insideColor cfg) (palette cfg) (quality cfg)
                 (progressiveRefinement cfg) (reduceQualityWhileDragging cfg)
                 (debugMode cfg) (zoomFactor cfg) in
  output (step (exec (App.performRender vp cfg) w) (EFrame (nextFrame w) now))
    = output w ++ [updatePalette (palette cfg); rendererRender vp drawn] ∧
  animSettingsOf cfg
    = mkSettings (fromZ reduced) (smoothColoring cfg) (gamma cfg)
        (insideColor cfg) (palette cfg) (quality cfg)
        (progressiveRefinement cfg) (reduceQualityWhileDragging cfg)
        (debugMode cfg) (zoomFactor cfg) ∧
  (32 ≤ reduced ≤ preset)%Z ∧
  (reduced = Z.max 32 (preset / 4))%Z.
Proof.
  intros w preset reduced drawn.
  pose proof (reachable_consistent history) as Hc. fold w in Hc.
  destruct (render_immediate_stores w vp (App.adjustedSettings cfg) Hc)
    as (Hlv & Hls & _ & _ & Hout & Hfr & _).
  destruct (render_frame_draws _ (nextFrame w) now vp (App.adjustedSettings cfg)
              Hfr Hlv Hls) as (Hdraw & _).
  assert (Hq : (32 ≤ reduced ≤ preset)%Z)
    by (subst reduced preset; destruct (quality cfg); vm_compute; split; discriminate).
  repeat match goal with |- _ ∧ _ => split end; try reflexivity; try apply Hq.
  unfold App.performRender. rewrite Hdraw, Hout. reflexivity.
Qed.
End Budgets.

(** ** Navigation history of the store *)

Section StoreLaws.
Context {T : Type} `{JsNum T} `{JsEq T}.

Lemma undo_nonempty (s : Store.AppState T) h previous :
  Store.viewportHistory s = h ++ [previous] →
  Store.undo s
  = Store.with_navigation previous h (Store.viewport s :: Store.viewportFuture s) s.
Proof.
  intros Hh. unfold Store.undo, Array_pop. rewrite Hh.
  rewrite bool_decide_eq_true_2 by (rewrite length_app; cbn; lia).
  rewrite last_snoc, removelast_last. reflexivity.
Qed.

Lemma redo_nonempty (s : Store.AppState T) next f :
  Store.viewportFuture s = next :: f →
  Store.redo s
  = Store.with_navigation next (Store.viewportHistory s ++ [Store.viewport s]) f s.
Proof.
  intros Hf. unfold Store.redo, Array_shift. rewrite Hf. reflexivity.
Qed.

Lemma undo_empty (s : Store.AppState T) :
  Store.viewportHistory s = [] → Store.undo s = s.
Proof. intros Hh. unfold Store.undo. rewrite Hh. reflexivity. Qed.

Lemma redo_empty (s : Store.AppState T) :
  Store.viewportFuture s = [] → Store.redo s = s.
Proof. intros Hf. unfold Store.redo. rewrite Hf. reflexivity. Qed.

Lemma snoc_cases {A} (l : list A) : l = [] ∨ ∃ h x, l = h ++ [x].
Proof.
  destruct l as [| a l] using rev_ind; [left; reflexivity | right; eauto].
Qed.

Lemma move_keeps (s : Store.AppState T) (m : HistoryMove) :
  timeline (move s m) = timeline s ∧
  beside_navigation (move s m) = beside_navigation s.
Proof.
  destruct m; cbn [move].
  - destruct (snoc_cases (Store.viewportHistory s)) as [Hh | (h & x & Hh)].
    + rewrite (undo_empty s Hh). split; reflexivity.
    + rewrite (undo_nonempty s h x Hh). unfold timeline. rewrite Hh. cbn.
      rewrite <- app_assoc. split; reflexivity.
  - destruct (Store.viewportFuture s) as [| n f] eqn:Hf.
    + rewrite (redo_empty s Hf). unfold timeline. rewrite Hf. split; reflexivity.
    + rewrite (redo_nonempty s n f Hf). unfold timeline. rewrite Hf. cbn.
      rewrite <- app_assoc. split; reflexivity.
Qed.

(** X24: whatever [undo]s and [redo]s are applied, in whatever order and
    however far past either end of the stacks, the sequence of views
    history-current-future stays the same list: no view is lost, duplicated or
    reordered, only the position of the current view moves.  Settings and UI
    state are not touched. *)
Theorem undo_redo_keep_timeline (ms : list HistoryMove) (s : Store.AppState T) :
  timeline (moves ms s) = timeline s ∧
  beside_navigation (moves ms s) = beside_navigation s.
Proof.
  revert s. induction ms as [| m ms IH]; intros s; [split; reflexivity |].
  change (moves (m :: ms) s) with (moves ms (move s m)).
  destruct (IH (move s m)) as [-> ->]. apply move_keeps.
Qed.

(** X25: [redo] undoes an [undo] that had something to undo, and [undo] undoes
    a [redo] that had something to redo: the whole store is back as it
    was. *)
Theorem undo_redo_round_trip (s : Store.AppState T) :
  (Store.useCanUndo s = true → Store.redo (Store.undo s) = s) ∧
  (Store.useCanRedo s = true → Store.undo (Store.redo s) = s).
Proof.
  split; intros Hcan; unfold Store.useCanUndo, Store.useCanRedo in Hcan;
    apply bool_decide_eq_true_1 in Hcan.
  - destruct (snoc_cases (Store.viewportHistory s)) as [Hh | (h & x & Hh)].
    + rewrite Hh in Hcan. cbn in Hcan. lia.
    + rewrite (undo_nonempty s h x Hh).
      erewrite redo_nonempty by reflexivity.
      destruct s; cbn in *. subst. reflexivity.
  - destruct (Store.viewportFuture s) as [| n f] eqn:Hf; [cbn in Hcan; lia |].
    rewrite (redo_nonempty s n f Hf).
    erewrite undo_nonempty by reflexivity.
    destruct s; cbn in *. subst. reflexivity.
Qed.

(** X26: the selectors behind the undo and redo buttons tell whether [undo]
    and [redo] do anything.  When [useCanUndo] is false [undo] returns the
    store unchanged; when it is true the newest entry of the history becomes
    the current view, the history loses that one entry, the view left is put
    in front of the redo stack and [useCanRedo] is true.  [redo] mirrors this:
    unchanged when [useCanRedo] is false; otherwise the first entry of the redo
    stack becomes current and the view left is appended to the history. *)
Theorem undo_redo_follow_selectors (s : Store.AppState T) :
  (Store.useCanUndo s = false → Store.undo s = s) ∧
  (Store.useCanUndo s = true →
   ∃ h previous,
     Store.viewportHistory s = h ++ [previous] ∧
     Store.viewport (Store.undo s) = previous ∧
     Store.viewportHistory (Store.undo s) = h ∧
     Store.viewportFuture (Store.undo s) = Store.viewport s :: Store.viewportFuture s ∧
     Store.useCanRedo (Store.undo s) = true) ∧
  (Store.useCanRedo s = false → Store.redo s = s) ∧
  (Store.useCanRedo s = true →
   ∃ next f,
     Store.viewportFuture s = next :: f ∧
     Store.viewport (Store.redo s) = next ∧
     Store.viewportFuture (Store.redo s) = f ∧
     Store.viewportHistory (Store.redo s)
       = Store.viewportHistory s ++ [Store.viewport s] ∧
     Store.useCanUndo (Store.redo s) = true).
Proof.
  unfold Store.useCanUndo at 1 2, Store.useCanRedo at 2 3.
  repeat match goal with |- _ ∧ _ => split end.
  - intros Hcan. apply bool_decide_eq_false_1 in Hcan.
    apply undo_empty. destruct (Store.viewportHistory s); [reflexivity | cbn in Hcan; lia].
  - intros Hcan. apply bool_decide_eq_true_1 in Hcan.
    destruct (snoc_cases (Store.viewportHistory s)) as [Hh | (h & x & Hh)].
    + rewrite Hh in Hcan. cbn in Hcan. lia.
    + exists h, x. rewrite (undo_nonempty s h x Hh). repeat split. exact Hh.
  - intros Hcan. apply bool_decide_eq_false_1 in Hcan.
    apply redo_empty. destruct (Store.viewportFuture s); [reflexivity | cbn in Hcan; lia].
  - intros Hcan. apply bool_decide_eq_true_1 in Hcan.
    destruct (Store.viewportFuture s) as [| n f] eqn:Hf; [cbn in Hcan; lia |].
    exists n, f. rewrite (redo_nonempty s n f Hf).
    repeat split. unfold Store.useCanUndo. cbn.
    apply bool_decide_eq_true_2. rewrite length_app. cbn. lia.
Qed.

Lemma pushViewportHistory_differs (v : Viewport T) (s : Store.AppState T) :
  differs (Store.viewport s) v = true →
  Store.pushViewportHistory v s
  = Store.with_navigation v (Store.viewportHistory s ++ [Store.viewport s]) [] s.
Proof.
  intros Hd. unfold Store.pushViewportHistory. unfold differs in Hd.
  rewrite Hd. reflexivity.
Qed.

(** X27: pushing a view that differs from the current one in some field
    records the current view, makes the new one current and empties the redo
    stack; an [undo] right after brings the recorded view back, with the pushed
    view as the only entry to redo, and a [redo] after that returns to the
    pushed state. *)
Theorem pushViewportHistory_then_undo (v : Viewport T) (s : Store.AppState T) :
  differs (Store.viewport s) v = true →
  let pushed := Store.pushViewportHistory v s in
  Store.viewport pushed = v ∧
  Store.viewportHistory pushed = Store.viewportHistory s ++ [Store.viewport s] ∧
  Store.viewportFuture pushed = [] ∧
  Store.undo pushed
  = Store.with_navigation (Store.viewport s) (Store.viewportHistory s) [v] s ∧
  Store.redo (Store.undo pushed) = pushed.
Proof.
  intros Hd pushed. subst pushed. rewrite (pushViewportHistory_differs v s Hd).
  repeat split.
  - erewrite undo_nonempty by reflexivity. reflexivity.
  - erewrite undo_nonempty by reflexivity. erewrite redo_nonempty by reflexivity.
    reflexivity.
Qed.

(** X28: [reset] always records the current view, also when the current view
    already is the home view, and empties the redo stack; [undo] right after it
    returns to the view the reset left. *)
Theorem reset_then_undo (aspectRatio : T) (s : Store.AppState T) :
  let home := resetViewport aspectRatio in
  Store.viewport (Store.reset aspectRatio s) = home ∧
  Store.viewportHistory (Store.reset aspectRatio s)
    = Store.viewportHistory s ++ [Store.viewport s] ∧
  Store.viewportFuture (Store.reset aspectRatio s) = [] ∧
  Store.viewportHistory (Store.reset aspectRatio (Store.reset aspectRatio s))
    = Store.viewportHistory s ++ [Store.viewport s; home] ∧
  Store.undo (Store.reset aspectRatio s)
    = Store.with_navigation (Store.viewport s) (Store.viewportHistory s) [home] s.
Proof.
  intros home. repeat split.
  - cbn. rewrite <- app_assoc. reflexivity.
  - unfold Store.reset. erewrite undo_nonempty by reflexivity. reflexivity.
Qed.

End StoreLaws.

Lemma pushViewportHistory_then_undo_zoomed :
  let s := Store.initialState (T:=float) in
  let v := mkViewport (-0.75)%float 0.125%float 2.5%float 1.5%float in
  Store.viewport (Store.undo (Store.pushViewportHistory v s)) = Store.viewport s ∧
  Store.redo (Store.undo (Store.pushViewportHistory v s)) = Store.pushViewportHistory v s.
Proof.
  intros s v.
  destruct (pushViewportHistory_then_undo v s) as (_ & _ & _ & Hundo & Hredo).
  - reflexivity.
  - split; [rewrite Hundo; reflexivity | exact Hredo].
Defined.

Section StoreNumbers.
Local Open Scope R_scope.

Lemma strict_ne_R_refl (a : R) : strict_ne a a = false.
Proof. cbn. destruct (Req_dec_T a a); [reflexivity | contradiction]. Qed.

Lemma strict_ne_R_spec (a b : R) : strict_ne a b = true ↔ a ≠ b.
Proof.
  cbn. destruct (Req_dec_T a b); split; intros; try congruence; try contradiction.
Qed.

(** X29: pushing the view that is already current changes nothing at all: no
    entry is recorded and, unlike after every other push, the redo stack is
    kept; over the reals the current view is the only view the test lets
    through this way.  In binary64 this holds exactly when none of the four
    fields of the current view is NaN: a view with a NaN in [centerRe],
    [centerIm], [width] or [height] differs from every view, itself included,
    so pushing it while it is current records it again and empties the redo
    stack. *)
Theorem pushViewportHistory_current_view :
  (∀ s : Store.AppState R,
     Store.pushViewportHistory (Store.viewport s) s = s ∧
     ∀ v, differs (Store.viewport s) v = false → v = Store.viewport s) ∧
  (∀ s : Store.AppState float,
     (has_nan (Store.viewport s) = true →
      let pushed := Store.pushViewportHistory (Store.viewport s) s in
      Store.viewport pushed = Store.viewport s ∧
      Store.viewportHistory pushed = Store.viewportHistory s ++ [Store.viewport s] ∧
      Store.viewportFuture pushed = []) ∧
     (has_nan (Store.viewport s) = false →
      Store.pushViewportHistory (Store.viewport s) s = s)).
Proof.
  split.
  - intros s. split.
    + unfold Store.pushViewportHistory. rewrite !strict_ne_R_refl. reflexivity.
    + intros v Hd. unfold differs in Hd.
      repeat (apply orb_false_iff in Hd as [Hd ?]).
      destruct v as [a b c d], (Store.viewport s) as [a' b' c' d']; cbn in *.
      repeat match goal with
      | Hn : (if Req_dec_T ?x ?y then false else true) = false |- _ =>
          destruct (Req_dec_T x y); [clear Hn | discriminate Hn]
      end.
      congruence.
  - intros s.
    assert (Htest : ∀ v : Viewport float,
              (strict_ne (centerRe v) (centerRe v)
               || strict_ne (centerIm v) (centerIm v)
               || strict_ne (width v) (width v)
               || strict_ne (height v) (height v))
              = has_nan v) by reflexivity.
    unfold Store.pushViewportHistory. rewrite Htest.
    split; intros ->; cbn; repeat split.
Qed.

(** A view whose spans are NaN, as [zoomToRect] returns for an empty
    selection, is recorded when it is pushed while current. *)
Lemma pushViewportHistory_current_view_nan_spans :
  let v := mkViewport (-0.5)%float 0%float PrimFloat.nan PrimFloat.nan in
  let s := Store.with_viewport v (Store.initialState (T:=float)) in
  Store.viewportHistory (Store.pushViewportHistory v s) = [v] ∧
  Store.viewportFuture (Store.pushViewportHistory v s) = [].
Proof.
  intros v s.
  destruct (proj2 pushViewportHistory_current_view s) as [Hnan _].
  destruct (Hnan eq_refl) as (_ & Hh & Hf).
  split; [exact Hh | exact Hf].
Defined.

(** X30: the export progress the store keeps is the given number clamped to
    [[0, 1]]: a number in the interval is kept, a smaller one becomes [0], a
    larger one [1], and storing the stored value again changes nothing.  In
    binary64 a NaN is not clamped: it is stored as NaN. *)
Theorem setExportProgress_clamps :
  (∀ (progress : R) (s : Store.AppState R),
     let s' := Store.setExportProgress progress s in
     0 <= Store.exportProgress s' <= 1 ∧
     (0 <= progress <= 1 → Store.exportProgress s' = progress) ∧
     (progress <= 0 → Store.exportProgress s' = 0) ∧
     (1 <= progress → Store.exportProgress s' = 1) ∧
     Store.setExportProgress (Store.exportProgress s') s' = s') ∧
  (∀ (progress : float) (s : Store.AppState float),
     is_nan progress = true →
     is_nan (Store.exportProgress (Store.setExportProgress progress s)) = true).
Proof.
  split.
  - intros progress s s'. subst s'. unfold Store.setExportProgress.
    cbn [Store.exportProgress Store.viewport Store.viewportHistory Store.viewportFuture
         Store.renderSettings Store.sidePanelOpen Store.isExporting Store.renderStats].
    cbn [Math_max Math_min fromZ R_JsNum].
    assert (Hclamp : 0 <= Rmax 0 (Rmin 1 progress) <= 1).
    { split; [apply Rmax_l |]. apply Rmax_lub; [lra | apply Rmin_l]. }
    repeat match goal with |- _ ∧ _ => split end; try apply Hclamp.
    + intros [H0 H1]. rewrite Rmin_right, Rmax_right by lra. reflexivity.
    + intros H0. rewrite Rmin_right, Rmax_left by lra. reflexivity.
    + intros H1. rewrite Rmin_left, Rmax_right by lra. reflexivity.
    + f_equal. destruct Hclamp. rewrite Rmin_right, Rmax_right by lra. reflexivity.
  - intros progress s Hnan. cbn [Store.setExportProgress Store.exportProgress].
    cbn [Math_max Math_min fromZ F_JsNum]. unfold F_min. rewrite Hnan.
    reflexivity.
Qed.
End StoreNumbers.
